(** * ptypy: load balancing, collective operations and the engine lifecycle

    A shallow embedding of
      - [ptypy/utils/parallel.py]: [LoadManager], [allreduce], [_MPIop] and
        its wrappers, [barrier];
      - [ptypy/engines/base.py]: [BaseEngine] and its lifecycle methods.

    Conventions.
      - numpy integer arrays are [list Z]. For the load array of
        [LoadManager] the 64-bit range of [dtype=int] is not modelled: loads
        are item counts, and the results are about loads for which
        [(sum(load) + N) * size] stays below [2^63]. The reductions of
        [_MPIop] work on the caller's numbers, so their sums and products
        wrap around at 64 bits ([wrap64]).
      - A Python exception is the result [None].
      - The module globals [size], [MPI] and [MPIenabled] are explicit
        parameters. *)

From Stdlib Require Import ZArith Lia Ascii String.
From stdpp Require Import base option list gmap strings.

Local Open Scope Z_scope.

(** ** The numpy operations used by [LoadManager.assign] *)

(** [a.sum()] on an integer array. *)
Definition np_sum (a : list Z) : Z := foldr Z.add 0 a.

(** [a // b] on numpy integers: floor division; a zero divisor gives 0
    (with a RuntimeWarning), not an exception. *)
Definition np_floordiv (a b : Z) : Z := if b =? 0 then 0 else a `div` b.

(** [a % b] on numpy integers: the remainder has the sign of the divisor; a
    zero divisor gives 0. *)
Definition np_mod (a b : Z) : Z := if b =? 0 then 0 else a `mod` b.

(** [np.cumsum(a)], with the running total made explicit. *)
Fixpoint cumsum_from (acc : Z) (a : list Z) : list Z :=
  match a with
  | [] => []
  | x :: a' => (acc + x) :: cumsum_from (acc + x) a'
  end.

Definition np_cumsum (a : list Z) : list Z := cumsum_from 0 a.

(** [a[m]] for a boolean mask [m]: the entries of [a] where [m] is true. *)
Fixpoint mask_select {A} (m : list bool) (a : list A) : list A :=
  match m, a with
  | b :: m', x :: a' => if b then x :: mask_select m' a' else mask_select m' a'
  | _, _ => []
  end.

(** [a[m] = v] for a boolean mask [m]: the entries of [a] where [m] is true
    are replaced, in order, by the entries of [v]. numpy insists that [v]
    has one entry per true position; in [assign] it has (lemma
    [ipart_length]), and here a short [v] leaves the remaining entries. *)
Fixpoint mask_assign (m : list bool) (a v : list Z) : list Z :=
  match m, a with
  | b :: m', x :: a' =>
      if b then
        match v with
        | y :: v' => y :: mask_assign m' a' v'
        | [] => x :: mask_assign m' a' []
        end
      else x :: mask_assign m' a' v
  | _, _ => a
  end.

(** [a.argmin()]: the index of the first occurrence of the minimum;
    ValueError on an empty array. *)
Fixpoint np_argmin (a : list Z) : option nat :=
  match a with
  | [] => None
  | x :: a' =>
      match np_argmin a' with
      | None => Some 0%nat
      | Some j =>
          match a' !! j with
          | Some y => if y <? x then Some (S j) else Some 0%nat
          | None => Some 0%nat
          end
      end
  end.

(** Python index normalisation for a sequence of length [n]: negative
    indices count from the end, anything else out of range is IndexError. *)
Definition py_index (n : nat) (i : Z) : option nat :=
  if (0 <=? i) && (i <? Z.of_nat n) then Some (Z.to_nat i)
  else if (- Z.of_nat n <=? i) && (i <? 0) then Some (Z.to_nat (i + Z.of_nat n))
  else None.

(** [a[:stop:-1] += 1]: the slice runs from the last entry backwards and
    ends before index [stop]; Python first adds the length to a negative
    [stop] and then clips it to [-1 .. len-1]. *)
Definition rev_slice_stop (n : nat) (stop : Z) : Z :=
  if stop <? 0 then Z.max (stop + Z.of_nat n) (-1)
  else Z.min stop (Z.of_nat n - 1).

Definition incr_rev_slice (stop : Z) (a : list Z) : list Z :=
  imap (λ j x, if rev_slice_stop (length a) stop <? Z.of_nat j
               then x + 1 else x) a.

(** The number of indices of [0 .. n-1] above a threshold [t]. *)
Definition above_count (t : Z) (n : nat) : Z :=
  Z.max 0 (Z.min (Z.of_nat n) (Z.of_nat n - 1 - t)).

(** [enumerate(l)], from a given start index. *)
Fixpoint enumerate_from {A} (s : nat) (l : list A) : list (nat * A) :=
  match l with
  | [] => []
  | x :: l' => (s, x) :: enumerate_from (S s) l'
  end.

Definition enumerate {A} (l : list A) : list (nat * A) := enumerate_from 0 l.

(** Rank [r] owns index [i] in a result [out] of [assign]. *)
Definition owns (out : list (list nat)) (r i : nat) : Prop :=
  ∃ l, out !! r = Some l ∧ i ∈ l.

(** A load array is balanced when its entries differ by at most one. *)
Definition balanced (ld : list Z) : Prop :=
  ∃ m, Forall (λ l, m ≤ l ≤ m + 1) ld.

(** ** [class LoadManager] *)

Section LoadManager.

Context {K : Type} `{Countable K}.

(** The module global [size]: the number of ranks. *)
Variable size : nat.

Record LoadManager := mkLoadManager {
  load : list Z;
  rank_of : gmap K nat;
}.

(** [LoadManager.__init__]. *)
Definition LoadManager_init : LoadManager :=
  {| load := replicate size 0; rank_of := ∅ |}.

(** [rlist[i < cumpart][0]]: the first rank whose cumulative boundary
    exceeds [i]; IndexError when there is none. [rlist] is [arange(size)]
    and [cumpart] has the length of [load], which [__init__] makes [size]. *)
Definition first_rank_above (cumpart : list Z) (i : nat) : option nat :=
  head (mask_select (map (λ c, Z.of_nat i <? c) cumpart) (seq 0 size)).

(** The loop [for i,k in enumerate(idlist)] of [assign]. *)
Fixpoint assign_loop (cumpart : list Z) (items : list (nat * K))
    (out : list (list nat)) (ro : gmap K nat)
    : option (list (list nat) * gmap K nat) :=
  match items with
  | [] => Some (out, ro)
  | (i, k) :: rest =>
      match first_rank_above cumpart i with
      | None => None
      | Some r =>
          assign_loop cumpart rest (alter (λ l, l ++ [i]) r out) (<[k := r]> ro)
      end
  end.

(** The intermediate values of the bulk branch of [assign] (lines 82-105),
    named as in the source, for a load array [ld] and [Nid] items. The
    source assigns [total_load] twice: [total_load0] is its first value
    (line 83), [total_load] the second (line 90). [ipart] is the array after
    the increment of line 101. *)
Definition total_load0 (ld : list Z) (Nid : Z) : Z := np_sum ld + Nid.

Definition li (ld : list Z) (Nid : Z) : list bool :=
  map (λ l, total_load0 ld Nid >? l * Z.of_nat size) ld.

Definition nsize (ld : list Z) (Nid : Z) : Z :=
  Z.of_nat (length (filter (λ b, b = true) (li ld Nid))).

Definition total_load (ld : list Z) (Nid : Z) : Z :=
  np_sum (mask_select (li ld Nid) ld) + Nid.

Definition partition (ld : list Z) (Nid : Z) : list Z :=
  map (λ l, total_load ld Nid - l * nsize ld Nid) (mask_select (li ld Nid) ld).

Definition rem (ld : list Z) (Nid : Z) : Z :=
  np_floordiv (np_sum (map (λ p, np_mod p (nsize ld Nid)) (partition ld Nid)))
              (nsize ld Nid).

Definition ipart (ld : list Z) (Nid : Z) : list Z :=
  incr_rev_slice (- (1 + rem ld Nid))
    (map (λ p, np_floordiv p (nsize ld Nid)) (partition ld Nid)).

Definition part (ld : list Z) (Nid : Z) : list Z :=
  mask_assign (li ld Nid) (map (λ _, 0) ld) (ipart ld Nid).

(** [LoadManager.assign]: [idlist = None] is the anonymous request. The
    result is the list [R] of per-rank index lists and the updated
    manager. *)
Definition assign (lm : LoadManager) (idlist : option (list K))
    : option (list (list nat) * LoadManager) :=
  match idlist with
  | None =>
      j ← np_argmin (reverse (load lm));
      let r := Z.of_nat size - 1 - Z.of_nat j in
      ri ← py_index (length (load lm)) r;
      Some (map (λ rr, if Z.of_nat rr =? r then [0%nat] else []) (seq 0 size),
            {| load := alter (λ x, x + 1) ri (load lm);
               rank_of := rank_of lm |})
  | Some ids =>
      let Nid := Z.of_nat (length ids) in
      let part := part (load lm) Nid in
      let load' := zip_with Z.add (load lm) part in
      let cumpart := np_cumsum part in
      '(out, ro) ← assign_loop cumpart (enumerate ids)
                     (replicate size []) (rank_of lm);
      Some (out, {| load := load'; rank_of := ro |})
  end.

(** A sequence of calls of [assign] on one manager; a call is the
    argument [idlist]. *)
Fixpoint run_assigns (lm : LoadManager) (calls : list (option (list K)))
    : option LoadManager :=
  match calls with
  | [] => Some lm
  | c :: calls' =>
      match assign lm c with
      | Some (_, lm') => run_assigns lm' calls'
      | None => None
      end
  end.

End LoadManager.

Arguments LoadManager K {_ _}.
Arguments mkLoadManager {K _ _}.
Arguments load {K _ _}.
Arguments rank_of {K _ _}.

(** ** Collective operations ([allreduce], [_MPIop], [barrier]) *)

(** The reductions of [_MPIop]. *)
Inductive Op := SUM | MAX | MIN | PROD.

(** Python values that flow through [_MPIop]: numpy scalars, one-dimensional
    integer arrays, and lists of arrays or of scalars whose entries may be
    [None]. *)
Inductive pyval :=
  | VScalar (z : Z)
  | VArray (a : list Z)
  | VArrays (l : list (option (list Z)))
  | VScalars (l : list (option Z)).

Definition np_prod (a : list Z) : Z := foldr Z.mul 1 a.

(** [np.max] and [np.min] raise ValueError on an empty sequence. *)
Definition np_max (a : list Z) : option Z :=
  match a with
  | [] => None
  | x :: a' => Some (foldr Z.max x a')
  end.

Definition np_min (a : list Z) : option Z :=
  match a with
  | [] => None
  | x :: a' => Some (foldr Z.min x a')
  end.

(** The value an int64 accumulator holds after exact arithmetic gave [z]:
    numpy adds and multiplies int64 numbers modulo [2^64], in two's
    complement. *)
Definition wrap64 (z : Z) : Z := (z + 2 ^ 63) `mod` 2 ^ 64 - 2 ^ 63.

(** [npop(x)] for [npop] one of [np.sum], [np.max], [np.min], [np.prod]
    and [x] a one-dimensional int64 array or a list of int64 scalars.  The
    sum and the product of the caller's numbers wrap around at 64 bits;
    maximum and minimum are one of the numbers. *)
Definition npop (o : Op) (a : list Z) : option Z :=
  match o with
  | SUM => Some (wrap64 (np_sum a))
  | MAX => np_max a
  | MIN => np_min a
  | PROD => Some (wrap64 (np_prod a))
  end.

(** [npop(ai, axis=k)] on a one-dimensional array: the only axis is 0 (or
    -1); any other axis is out of bounds. *)
Definition npop_axis (o : Op) (a : list Z) (k : Z) : option Z :=
  if (k =? 0) || (k =? -1) then npop o a else None.

(** [s.upper()]. *)
Definition upper_ascii (c : ascii) : ascii :=
  let n := nat_of_ascii c in
  if ((97 <=? n) && (n <=? 122))%nat then ascii_of_nat (n - 32) else c.

Fixpoint upper (s : string) : string :=
  match s with
  | EmptyString => EmptyString
  | String c s' => String (upper_ascii c) (upper s')
  end.

Section CollectiveOps.

(** Everything outside the process that the communicator can change. *)
Variable World : Type.

(** The operation handles of mpi4py and the module object [MPI]; the
    global [MPI] is [None] when the import failed. *)
Variable mpi_op : Type.

Record MPI_module := mkMPI {
  MPI_SUM : mpi_op;
  MPI_MAX : mpi_op;
  MPI_MIN : mpi_op;
  MPI_PROD : mpi_op;
}.

Variable MPI : option MPI_module.

(** The module global [MPIenabled]. *)
Variable MPIenabled : bool.

(** [comm.Allreduce(MPI.IN_PLACE, a, op=...)]: the contents of [a]
    afterwards; [comm.Barrier()]. *)
Variable comm_Allreduce : option mpi_op → pyval → World → pyval * World.
Variable comm_Barrier : World → World.

(** [npop(g)] for a generator [g] of arrays, as in the [axis==0] branch:
    what numpy returns there is left to the numpy in use. *)
Variable npop_gen : Op → list (list Z) → option pyval.

(** [allreduce(a, op=None)]: the contents of [a] after the call. *)
Definition allreduce (a : pyval) (op : option mpi_op) (w : World)
    : pyval * World :=
  if negb MPIenabled then (a, w)
  else comm_Allreduce op a w.

(** The dictionary literal of [_MPIop] and its lookup by [op.upper()]:
    AttributeError when [MPI] is [None], KeyError on an unknown name. *)
Definition op_table (op : string) : option (mpi_op * Op) :=
  M ← MPI;
  let key := upper op in
  if String.eqb key "SUM" then Some (MPI_SUM M, SUM)
  else if String.eqb key "MAX" then Some (MPI_MAX M, MAX)
  else if String.eqb key "MIN" then Some (MPI_MIN M, MIN)
  else if String.eqb key "PROD" then Some (MPI_PROD M, PROD)
  else None.

(** [[ai for ai in a if ai is not None]]. *)
Definition present {A} (a : list (option A)) : list A := omap id a.

(** [s[0]]. *)
Definition item0 (s : pyval) : option pyval :=
  match s with
  | VArray (x :: _) => Some (VScalar x)
  | _ => None
  end.

(** [_MPIop(a, op, axis=None)] for a list [a] of one-dimensional arrays
    with absent entries. *)
Definition _MPIop (a : list (option (list Z))) (op : string)
    (axis : option Z) (w : World) : option (pyval * World) :=
  '(MPIop, o) ← op_table op;
  match axis with
  | None =>
      locals ← mapM (npop o) (present a);
      x ← npop o locals;
      let s := VArray [x] in
      let sw := if MPIenabled then comm_Allreduce (Some MPIop) s w else (s, w) in
      r ← item0 sw.1;
      Some (r, sw.2)
  | Some ax =>
      if ax =? 0 then
        s ← npop_gen o (present a);
        Some (if MPIenabled then comm_Allreduce (Some MPIop) s w else (s, w))
      else
        r ← mapM (λ ai, match ai with
                         | Some x => y ← npop_axis o x (ax - 1); Some (Some y)
                         | None => Some None
                         end) a;
        Some (VScalars r, w)
  end.

Definition MPIsum a (axis : option Z) := _MPIop a "SUM" axis.
Definition MPImin a (axis : option Z) := _MPIop a "MIN" axis.
Definition MPImax a (axis : option Z) := _MPIop a "MAX" axis.
Definition MPIprod a (axis : option Z) := _MPIop a "PROD" axis.

(** [barrier()]. *)
Definition barrier (w : World) : World :=
  if negb MPIenabled then w else comm_Barrier w.

End CollectiveOps.

Arguments mkMPI {mpi_op}.
Arguments MPI_SUM {mpi_op}.
Arguments MPI_MAX {mpi_op}.
Arguments MPI_MIN {mpi_op}.
Arguments MPI_PROD {mpi_op}.
Arguments op_table {mpi_op}.
Arguments allreduce {World mpi_op}.
Arguments _MPIop {World mpi_op}.
Arguments MPIsum {World mpi_op}.
Arguments MPImin {World mpi_op}.
Arguments MPImax {World mpi_op}.
Arguments MPIprod {World mpi_op}.
Arguments barrier {World}.

(** The reduction of the locally owned data alone, in the words of the
    docstrings: for [axis=None] the reduction of the reductions of the
    entries that are present; for [axis=0] numpy's reduction over the
    present entries; for another axis each present entry reduced along
    [axis-1], absent entries staying absent. *)
Definition local_reduce (npop_gen : Op → list (list Z) → option pyval)
    (o : Op) (a : list (option (list Z))) (axis : option Z) : option pyval :=
  match axis with
  | None =>
      locals ← mapM (npop o) (present a);
      VScalar <$> npop o locals
  | Some ax =>
      if ax =? 0 then npop_gen o (present a)
      else
        VScalars <$>
          mapM (λ ai, match ai with
                      | Some x => Some <$> npop_axis o x (ax - 1)
                      | None => Some None
                      end) a
  end.

(** ** [class BaseEngine] *)

(** The parameters the lifecycle reads. [probe_support] may be [None]. *)
Record Param (Support : Type) := mkParam {
  p_numiter : Z;
  p_numiter_contiguous : Z;
  p_probe_support : option Support;
}.

Arguments mkParam {Support}.
Arguments p_numiter {Support}.
Arguments p_numiter_contiguous {Support}.
Arguments p_probe_support {Support}.

(** A dictionary of overrides for [Param.update]. *)
Record ParamUpdate (Support : Type) := mkParamUpdate {
  u_numiter : option Z;
  u_numiter_contiguous : option Z;
  u_probe_support : option (option Support);
}.

Arguments mkParamUpdate {Support}.
Arguments u_numiter {Support}.
Arguments u_numiter_contiguous {Support}.
Arguments u_probe_support {Support}.

Definition Param_update {Support} (p : Param Support) (u : ParamUpdate Support)
    : Param Support :=
  {| p_numiter := default (p_numiter p) (u_numiter u);
     p_numiter_contiguous :=
       default (p_numiter_contiguous p) (u_numiter_contiguous u);
     p_probe_support := default (p_probe_support p) (u_probe_support u) |}.

(** What surrounds the lifecycle. [World] is everything the hooks and the
    communicator work on (the arrays of the parent [ptycho] object, the
    clock): opaque here. [bind_containers] stands for lines 80-87 of
    [initialize] (binding [di], [ob], [pr], [ma], [ex], [pods], emptying
    [probe_support]), [calc_probe_support] for lines 101-105 of [prepare]
    (the support masks); [MPIenabled] and [comm_Barrier] are those of
    [parallel]. *)
Class Environment (World Time Support : Type) := {
  time_time : World → Time * World;
  time_sub : Time → Time → Time;
  default_probe_support : Support;
  bind_containers : World → World;
  calc_probe_support : Support → World → World;
  MPIenabled : bool;
  comm_Barrier : World → World;
}.

(** What a child class supplies: the four hooks, its name
    ([self.__class__.__name__]) and its class attribute [DEFAULT]. The
    book-keeping attributes of the engine are not the hooks' to change. *)
Class EngineHooks (World Err Support : Type) := {
  engine_initialize : World → World;
  engine_prepare : World → World;
  engine_iterate : World → Err * World;
  engine_finalize : World → World;
  class_name : string;
  DEFAULT : ParamUpdate Support;
}.

(** One iteration record ([self.meta.copy()]). *)
Record Meta (Err Time : Type) := mkMeta {
  iteration : Z;
  engine : string;
  duration : Time;
  error : Err;
}.

Arguments mkMeta {Err Time}.
Arguments iteration {Err Time}.
Arguments engine {Err Time}.
Arguments duration {Err Time}.
Arguments error {Err Time}.

(** The attributes of an engine. [curiter] and [errorlist] do not exist
    before [initialize]; [iter_info] is [self.ptycho.runtime.iter_info],
    whose entries carry the extra key ['iterations']. *)
Record BaseEngine (Err Time Support : Type) := mkEngine {
  p : Param Support;
  itermeta : list (Meta Err Time);
  meta : option (Meta Err Time);
  finished : bool;
  numiter : Z;
  curiter : option Z;
  errorlist : option (list Err);
  iter_info : list (nat * Meta Err Time);
}.

Arguments mkEngine {Err Time Support}.
Arguments p {Err Time Support}.
Arguments itermeta {Err Time Support}.
Arguments meta {Err Time Support}.
Arguments finished {Err Time Support}.
Arguments numiter {Err Time Support}.
Arguments curiter {Err Time Support}.
Arguments errorlist {Err Time Support}.
Arguments iter_info {Err Time Support}.

(** The lifecycle operations a caller can apply to an engine. *)
Inductive lifecycle_op :=
  | OpInitialize
  | OpPrepare
  | OpIterate (num : option Z)
  | OpFinalize.

(** The counter and the two histories agree. *)
Definition bookkeeping_inv {Err Time Support} (e : BaseEngine Err Time Support)
    : Prop :=
  curiter e = Some (Z.of_nat (length (itermeta e))) ∧
  length <$> errorlist e = Some (length (itermeta e)).

Section BaseEngine.

Context {World Err Time Support : Type}.
Context `{Env : !Environment World Time Support}.
Context `{Hooks : !EngineHooks World Err Support}.

Local Abbreviation Engine := (BaseEngine Err Time Support).

Definition DEFAULT_BASE : Param Support :=
  {| p_numiter := 10;
     p_numiter_contiguous := 1;
     p_probe_support := Some default_probe_support |}.

(** [BaseEngine.__init__(ptycho_parent, pars)]; [runtime_info] is the log
    of the parent. *)
Definition BaseEngine_init (pars : option (ParamUpdate Support))
    (runtime_info : list (nat * Meta Err Time)) : Engine :=
  let p0 := Param_update DEFAULT_BASE DEFAULT in
  let p1 := match pars with Some u => Param_update p0 u | None => p0 end in
  {| p := p1; itermeta := []; meta := None; finished := false;
     numiter := p_numiter p1; curiter := None; errorlist := None;
     iter_info := runtime_info |}.

(** [BaseEngine.initialize]. *)
Definition initialize (e : Engine) (w : World) : Engine * World :=
  ({| p := p e; itermeta := itermeta e; meta := meta e;
      finished := finished e; numiter := numiter e;
      curiter := Some 0; errorlist := Some []; iter_info := iter_info e |},
   engine_initialize (bind_containers w)).

(** [BaseEngine.prepare] on an engine that has been initialized, so that
    [self.pr] and [self.probe_support] exist. On an engine that has never
    been initialized the source raises AttributeError at [self.pr.S] when
    [probe_support] is not [None]; nothing is stated about [prepare] there. *)
Definition prepare (e : Engine) (w : World) : Engine * World :=
  let w1 := match p_probe_support (p e) with
            | Some supp => calc_probe_support supp w
            | None => w
            end in
  ({| p := p e; itermeta := itermeta e; meta := meta e;
      finished := false; numiter := numiter e;
      curiter := curiter e; errorlist := errorlist e;
      iter_info := iter_info e |},
   engine_prepare w1).

(** The body of the loop of [iterate] after the [finished] test:
    AttributeError when [errorlist] or [curiter] does not exist. *)
Definition iterate_body (e : Engine) (w : World) : option (Engine * World) :=
  let tw := time_time w in
  let ew := engine_iterate tw.2 in
  el ← errorlist e;
  ci ← curiter e;
  let ci' := ci + 1 in
  let fin := if ci' =? numiter e then true else finished e in
  let tw' := time_time ew.2 in
  let m := {| iteration := ci'; engine := class_name;
              duration := time_sub tw'.1 tw.1; error := ew.1 |} in
  Some ({| p := p e; itermeta := itermeta e ++ [m]; meta := Some m;
           finished := fin; numiter := numiter e;
           curiter := Some ci'; errorlist := Some (el ++ [ew.1]);
           iter_info := iter_info e ++ [(length (iter_info e), m)] |},
        barrier MPIenabled comm_Barrier tw'.2).

(** [for n in range(N): if self.finished: break; ...]. *)
Fixpoint iterate_loop (n : nat) (e : Engine) (w : World)
    : option (Engine * World) :=
  match n with
  | O => Some (e, w)
  | S n' =>
      if finished e then Some (e, w)
      else
        match iterate_body e w with
        | Some ew' => iterate_loop n' ew'.1 ew'.2
        | None => None
        end
  end.

(** [BaseEngine.iterate(num=None)]. *)
Definition iterate (num : option Z) (e : Engine) (w : World)
    : option (Engine * World) :=
  let N := match num with
           | Some n => n
           | None => p_numiter_contiguous (p e)
           end in
  iterate_loop (Z.to_nat N) e w.

(** [BaseEngine.finalize]. *)
Definition finalize (e : Engine) (w : World) : Engine * World :=
  (e, engine_finalize w).

Definition apply_op (o : lifecycle_op) (e : Engine) (w : World)
    : option (Engine * World) :=
  match o with
  | OpInitialize => Some (initialize e w)
  | OpPrepare => Some (prepare e w)
  | OpIterate num => iterate num e w
  | OpFinalize => Some (finalize e w)
  end.

Fixpoint run_ops (ops : list lifecycle_op) (e : Engine) (w : World)
    : option (Engine * World) :=
  match ops with
  | [] => Some (e, w)
  | o :: ops' =>
      match apply_op o e w with
      | Some ew' => run_ops ops' ew'.1 ew'.2
      | None => None
      end
  end.

(** The counter stays within the budget, and has reached it only with
    [finished] set. *)
Definition within_budget (e : Engine) : Prop :=
  ∃ c, curiter e = Some c ∧ 0 ≤ c ≤ numiter e ∧
       (c = numiter e → finished e = true).

(** An engine with budget [B] and batch size 1 that has completed [k]
    iterations. *)
Definition at_iteration (B : Z) (k : nat) (e : Engine) : Prop :=
  numiter e = B ∧
  p_numiter_contiguous (p e) = 1 ∧
  curiter e = Some (Z.of_nat k) ∧
  length <$> errorlist e = Some k ∧
  length (itermeta e) = k ∧
  finished e = (Z.of_nat k =? B).

(** The states reached from [(e0, w0)] by lifecycle operations when
    [prepare] is only applied to an engine that is not finished. *)
Inductive reached_without_rerun (e0 : Engine) (w0 : World)
    : Engine → World → Prop :=
  | reached_start : reached_without_rerun e0 w0 e0 w0
  | reached_step e w o e' w' :
      reached_without_rerun e0 w0 e w →
      (o = OpPrepare → finished e = false) →
      apply_op o e w = Some (e', w') →
      reached_without_rerun e0 w0 e' w'.

End BaseEngine.

(** A small concrete engine for examples: no state besides the clock
    reading, which advances by one at every reading; the step hook reports
    the clock as its error value. *)
Definition demo_env : Environment Z Z unit :=
  {| time_time := λ w, (w, w + 1);
     time_sub := Z.sub;
     default_probe_support := tt;
     bind_containers := λ w, w;
     calc_probe_support := λ _ w, w;
     MPIenabled := false;
     comm_Barrier := λ w, w |}.

Definition demo_hooks : EngineHooks Z Z unit :=
  {| engine_initialize := λ w, w;
     engine_prepare := λ w, w;
     engine_iterate := λ w, (w, w);
     engine_finalize := λ w, w;
     class_name := "DM";
     DEFAULT := {| u_numiter := None; u_numiter_contiguous := None;
                   u_probe_support := None |} |}.

(** [BaseEngine(ptycho, pars)] of the demo engine with a given budget. *)
Definition demo_engine (budget : Z) : BaseEngine Z Z unit :=
  BaseEngine_init (Env := demo_env) (Hooks := demo_hooks)
    (Some {| u_numiter := Some budget; u_numiter_contiguous := None;
             u_probe_support := None |}) [].

(** ** Histories of [assign] calls with their results *)

Section LoadManagerHistory.

Context {K : Type} `{Countable K}.
Variable size : nat.

(** As [run_assigns], keeping the list [R] each call returned. *)
Fixpoint run_assigns_outs (lm : LoadManager K) (calls : list (option (list K)))
    : option (list (list (list nat)) * LoadManager K) :=
  match calls with
  | [] => Some ([], lm)
  | c :: calls' =>
      match assign size lm c with
      | Some (out, lm') =>
          match run_assigns_outs lm' calls' with
          | Some (outs, lm'') => Some (out :: outs, lm'')
          | None => None
          end
      | None => None
      end
  end.

End LoadManagerHistory.

(** The number of indices rank [r] was given in the results [outs]. *)
Definition share_total (outs : list (list (list nat))) (r : nat) : Z :=
  foldr (λ out acc, Z.of_nat (length (default [] (out !! r))) + acc) 0 outs.

(** ** The effect and the record of one iteration *)

Section BaseEngineTrace.

Context {World Err Time Support : Type}.
Context `{Env : !Environment World Time Support}.
Context `{Hooks : !EngineHooks World Err Support}.

(** What one pass through the loop body of [iterate] does to the
    surroundings: a clock reading, the hook, a clock reading, the barrier. *)
Definition iteration_effect (w : World) : World :=
  barrier MPIenabled comm_Barrier
    (time_time (engine_iterate (time_time w).2).2).2.

(** The record the pass appends when the counter is [c] before it. *)
Definition iteration_record (c : Z) (w : World) : Meta Err Time :=
  {| iteration := c + 1;
     engine := class_name;
     duration := time_sub (time_time (engine_iterate (time_time w).2).2).1
                          (time_time w).1;
     error := (engine_iterate (time_time w).2).1 |}.

(** The histories of an engine are consistent: records are numbered from 1
    and carry the class name, the error history is the errors of the
    records, and [meta] is the last record. *)
Definition records_inv (e : BaseEngine Err Time Support) : Prop :=
  curiter e = Some (Z.of_nat (length (itermeta e))) ∧
  iteration <$> itermeta e
    = (λ i, Z.of_nat (S i)) <$> seq 0 (length (itermeta e)) ∧
  Forall (λ m, engine m = class_name) (itermeta e) ∧
  errorlist e = Some (error <$> itermeta e) ∧
  meta e = last (itermeta e).

End BaseEngineTrace.

(** ** The module state of [parallel] and [useMPI] *)

(** How far the [try] block at import time got before an exception: the
    import of mpi4py, [MPI.COMM_WORLD], [comm.Get_size()],
    [comm.Get_rank()]. *)
Inductive import_outcome (mpi_op : Type) :=
  | ImportFailed
  | CommFailed (M : MPI_module mpi_op)
  | GetSizeFailed (M : MPI_module mpi_op)
  | GetRankFailed (M : MPI_module mpi_op) (sz : nat)
  | Imported (M : MPI_module mpi_op) (sz rk : nat).

Arguments ImportFailed {mpi_op}.
Arguments CommFailed {mpi_op}.
Arguments GetSizeFailed {mpi_op}.
Arguments GetRankFailed {mpi_op}.
Arguments Imported {mpi_op}.

(** The globals [size], [rank], [MPI], [comm] (present or [None]),
    [MPIenabled] and [master]. *)
Record parallel_globals (mpi_op : Type) := mkGlobals {
  g_size : nat;
  g_rank : nat;
  g_MPI : option (MPI_module mpi_op);
  g_comm : bool;
  g_MPIenabled : bool;
  g_master : bool;
}.

Arguments mkGlobals {mpi_op}.
Arguments g_size {mpi_op}.
Arguments g_rank {mpi_op}.
Arguments g_MPI {mpi_op}.
Arguments g_comm {mpi_op}.
Arguments g_MPIenabled {mpi_op}.
Arguments g_master {mpi_op}.

(** Lines 14-28 of [parallel.py]. *)
Definition module_import {mpi_op} (o : import_outcome mpi_op)
    : parallel_globals mpi_op :=
  let size := match o with
              | GetRankFailed _ sz | Imported _ sz _ => sz
              | _ => 1%nat
              end in
  let rank := match o with Imported _ _ rk => rk | _ => 0%nat end in
  {| g_size := size;
     g_rank := rank;
     g_MPI := match o with
              | ImportFailed => None
              | CommFailed M | GetSizeFailed M | GetRankFailed M _
              | Imported M _ _ => Some M
              end;
     g_comm := match o with ImportFailed | CommFailed _ => false | _ => true end;
     g_MPIenabled := negb (size =? 1)%nat;
     g_master := (rank =? 0)%nat |}.

(** [useMPI(do=None)]: the value returned ([None] when the function falls
    off its end) and the globals afterwards. *)
Definition useMPI {mpi_op} (do : option bool) (g : parallel_globals mpi_op)
    : option bool * parallel_globals mpi_op :=
  match do with
  | None => (Some (g_MPIenabled g), g)
  | Some d =>
      (None,
       {| g_size := g_size g; g_rank := g_rank g; g_MPI := g_MPI g;
          g_comm := g_comm g;
          g_MPIenabled := match g_MPI g with None => false | Some _ => d end;
          g_master := g_master g |})
  end.

(** A sequence of [useMPI] calls. *)
Definition useMPI_calls {mpi_op} (dos : list (option bool))
    (g : parallel_globals mpi_op) : parallel_globals mpi_op :=
  foldl (λ g do, (useMPI do g).2) g dos.

(** ** Point-to-point transfer ([send], [receive]) *)

(** A numpy array: its shape, [dtype.str] and its elements in order. The
    elements of a boolean array (dtype ['|b1']) are 0 and 1. *)
Record ndarray := mkArray {
  a_shape : list nat;
  a_dtype : string;
  a_items : list Z;
}.

Definition array_size (sh : list nat) : nat := foldr Nat.mul 1%nat sh.

(** An array as numpy builds it. *)
Definition array_wf (a : ndarray) : Prop :=
  length (a_items a) = array_size (a_shape a) ∧
  (a_dtype a = "|b1" → Forall (λ x, x = 0 ∨ x = 1) (a_items a)).

(** [a.astype('uint8')] on a boolean array, [a.astype('bool')], and
    [np.empty(shape, dtype)], whose contents are arbitrary (zeros here). *)
Definition astype_uint8 (a : ndarray) : ndarray :=
  {| a_shape := a_shape a; a_dtype := "|u1"; a_items := a_items a |}.

Definition astype_bool (a : ndarray) : ndarray :=
  {| a_shape := a_shape a; a_dtype := "|b1";
     a_items := map (λ x, if x =? 0 then 0 else 1) (a_items a) |}.

Definition np_empty (sh : list nat) (dt : string) : ndarray :=
  {| a_shape := sh; a_dtype := dt; a_items := replicate (array_size sh) 0 |}.

(** The messages in flight from one sender to one receiver, oldest first:
    an object sent with [comm.send] (here always a header) or the elements
    of a buffer sent with [comm.Send], each with its tag. A receive takes
    the oldest message that carries its tag; with none it does not return
    ([None]). Elements are handed over one for one: sender and receiver
    use the same element type. *)
Inductive body :=
  | Header (sh : list nat) (dt : string)
  | Buffer (d : list Z).

Definition channel := list (Z * body).

Fixpoint take_tag (tag : Z) (ch : channel) : option (body * channel) :=
  match ch with
  | [] => None
  | (t, b) :: ch' =>
      if t =? tag then Some (b, ch')
      else
        match take_tag tag ch' with
        | Some (b', ch'') => Some (b', (t, b) :: ch'')
        | None => None
        end
  end.

Definition comm_send (h : list nat * string) (tag : Z) (ch : channel) : channel :=
  ch ++ [(tag, Header h.1 h.2)].

Definition comm_Send (a : ndarray) (tag : Z) (ch : channel) : channel :=
  ch ++ [(tag, Buffer (a_items a))].

(** [comm.recv]: the message must be an object. *)
Definition comm_recv (tag : Z) (ch : channel)
    : option (list nat * string * channel) :=
  match take_tag tag ch with
  | Some (Header sh dt, ch') => Some (sh, dt, ch')
  | _ => None
  end.

(** [comm.Recv(out, ...)]: the message must be a buffer that fits into
    [out], whose first elements it overwrites.  The elements are handed
    over as numbers, which is what the source does when the message was
    sent from an array of the element type of [out]; mpi4py copies raw
    bytes, so that elements of another type are reinterpreted, and what it
    does with a message longer than [out] is not fixed here.  The results
    below use [comm_Recv] for messages of the element type of [out] that
    fill it exactly. *)
Definition comm_Recv (out : ndarray) (tag : Z) (ch : channel)
    : option (ndarray * channel) :=
  match take_tag tag ch with
  | Some (Buffer d, ch') =>
      if (length d <=? length (a_items out))%nat
      then Some ({| a_shape := a_shape out; a_dtype := a_dtype out;
                    a_items := d ++ drop (length d) (a_items out) |}, ch')
      else None
  | _ => None
  end.

(** [send(data, dest, tag)]. *)
Definition send (data : ndarray) (tag : Z) (ch : channel) : channel :=
  let header := (a_shape data, a_dtype data) in
  let ch1 := comm_send header 1 ch in
  if String.eqb (a_dtype data) "|b1"
  then comm_Send (astype_uint8 data) tag ch1
  else comm_Send data tag ch1.

(** [receive(source, tag, out)]. *)
Definition receive (tag : Z) (out : option ndarray) (ch : channel)
    : option (ndarray * channel) :=
  '(sh, dtypestr, ch1) ← comm_recv 1 ch;
  let newdtype := if String.eqb dtypestr "|b1" then "|u1"%string else dtypestr in
  let out1 := match out with
              | Some o => o
              | None => np_empty sh newdtype
              end in
  '(out2, ch2) ← comm_Recv out1 tag ch1;
  if String.eqb dtypestr "|b1"
  then Some (astype_bool out2, ch2)
  else Some (out2, ch2).

(** * Properties of the numpy layer *)

Lemma np_sum_app (a b : list Z) : np_sum (a ++ b) = np_sum a + np_sum b.
Proof. induction a as [|x a IH]; simpl; [done | rewrite IH; lia]. Qed.

Lemma cumsum_from_length (acc : Z) (a : list Z) :
  length (cumsum_from acc a) = length a.
Proof. revert acc. induction a as [|x a IH]; intros acc; simpl; [done | by rewrite IH]. Qed.

(** Entry [r] of the cumulative sum is the sum of the first [r+1] entries. *)
Lemma cumsum_from_lookup (acc : Z) (a : list Z) (r : nat) :
  (r < length a)%nat →
  cumsum_from acc a !! r = Some (acc + np_sum (take (S r) a)).
Proof.
  revert acc r. induction a as [|x a IH]; intros acc r Hr; simpl in *; [lia |].
  destruct r as [|r]; simpl.
  - f_equal. lia.
  - rewrite IH by lia. f_equal. lia.
Qed.

Lemma np_cumsum_lookup (a : list Z) (r : nat) :
  (r < length a)%nat → np_cumsum a !! r = Some (np_sum (take (S r) a)).
Proof. intros Hr. unfold np_cumsum. rewrite cumsum_from_lookup by done. f_equal. Qed.

Lemma np_cumsum_lookup_inv (a : list Z) (r : nat) (c : Z) :
  np_cumsum a !! r = Some c → (r < length a)%nat ∧ c = np_sum (take (S r) a).
Proof.
  intros Hc. assert (r < length a)%nat as Hr.
  { apply lookup_lt_Some in Hc. unfold np_cumsum in Hc.
    by rewrite cumsum_from_length in Hc. }
  split; [done |]. rewrite np_cumsum_lookup in Hc by done. congruence.
Qed.

(** The first index, counted from [s], at which the mask is true. *)
Lemma head_mask_select_Some (m : list bool) (s n r : nat) :
  head (mask_select m (seq s n)) = Some r ↔
  (s ≤ r < s + n)%nat ∧ m !! (r - s)%nat = Some true ∧
  ∀ r', (s ≤ r' < r)%nat → m !! (r' - s)%nat = Some false.
Proof.
  revert s n. induction m as [|b m IH]; intros s n.
  - simpl. split; [done |]. intros (_ & Hm & _). done.
  - destruct n as [|n]; simpl.
    { split; [done |]. lia. }
    destruct b; simpl.
    + split.
      * intros [= <-]. rewrite Nat.sub_diag. repeat split; [lia | lia | intros; lia].
      * intros (Hr & Hm & Hmin). destruct (decide (r = s)) as [-> | Hne]; [done |].
        specialize (Hmin s ltac:(lia)). rewrite Nat.sub_diag in Hmin. done.
    + rewrite IH. split.
      * intros (Hr & Hm & Hmin). repeat split; try lia.
        -- replace (r - s)%nat with (S (r - S s)) by lia. done.
        -- intros r' Hr'. destruct (decide (r' = s)) as [-> | Hne].
           ++ by rewrite Nat.sub_diag.
           ++ replace (r' - s)%nat with (S (r' - S s)) by lia.
              apply Hmin. lia.
      * intros (Hr & Hm & Hmin). destruct (decide (r = s)) as [-> | Hne].
        { rewrite Nat.sub_diag in Hm. done. }
        repeat split; try lia.
        -- replace (r - s)%nat with (S (r - S s)) in Hm by lia. done.
        -- intros r' Hr'. specialize (Hmin r' ltac:(lia)).
           replace (r' - s)%nat with (S (r' - S s)) in Hmin by lia. done.
Qed.

Lemma head_mask_select_is_Some (m : list bool) (s n r : nat) :
  (r < n)%nat → m !! r = Some true →
  is_Some (head (mask_select m (seq s n))).
Proof.
  revert s n r. induction m as [|b m IH]; intros s n r Hr Hm; [done |].
  destruct n as [|n]; [lia |]. simpl. destruct b; simpl; [by eexists |].
  destruct r as [|r]; [done |]. simpl in Hm. eapply (IH _ _ r); [lia | done].
Qed.

Lemma np_floordiv_pos (a b : Z) : 0 < b → np_floordiv a b = a `div` b.
Proof. intros Hb. unfold np_floordiv. destruct (Z.eqb_spec b 0); [lia | done]. Qed.

Lemma np_mod_pos (a b : Z) : 0 < b → np_mod a b = a `mod` b.
Proof. intros Hb. unfold np_mod. destruct (Z.eqb_spec b 0); [lia | done]. Qed.

(** Some entry of a non-empty array is at most the mean. *)
Lemma min_le_mean (a : list Z) :
  a ≠ [] → ∃ x, x ∈ a ∧ x * Z.of_nat (length a) ≤ np_sum a.
Proof.
  induction a as [|x a IH]; [done |]. intros _.
  destruct a as [|y a].
  - exists x. split; [apply list_elem_of_here |]. simpl. lia.
  - destruct IH as (m & Hm & Hle); [done |].
    destruct (Z_le_gt_dec x m) as [Hxm | Hxm].
    + exists x. split; [apply list_elem_of_here |].
      change (np_sum (x :: y :: a)) with (x + np_sum (y :: a)).
      change (length (x :: y :: a)) with (S (length (y :: a))). nia.
    + exists m. split; [by apply list_elem_of_further |].
      change (np_sum (x :: y :: a)) with (x + np_sum (y :: a)).
      change (length (x :: y :: a)) with (S (length (y :: a))). nia.
Qed.

(** The entries selected by the mask of a test [f]. *)
Lemma mask_count (f : Z → bool) (a : list Z) :
  length (filter (λ b, b = true) (map f a)) = length (mask_select (map f a) a).
Proof.
  induction a as [|x a IH]; [done |]. simpl.
  destruct (f x) eqn:Hfx.
  - rewrite filter_cons_True by done. simpl. by rewrite IH.
  - rewrite filter_cons_False by congruence. done.
Qed.

Lemma elem_of_mask_select (f : Z → bool) (a : list Z) (x : Z) :
  x ∈ mask_select (map f a) a ↔ x ∈ a ∧ f x = true.
Proof.
  induction a as [|y a IH]; simpl.
  - split; [by intros ?%elem_of_nil | by intros [?%elem_of_nil _]].
  - destruct (f y) eqn:Hfy; rewrite ?elem_of_cons, IH, ?elem_of_cons.
    + split; [intros [-> | [? ?]]; auto | intros [[-> | ?] ?]; auto].
    + split; [intros [? ?]; auto | intros [[-> | ?] ?]; [congruence | auto]].
Qed.

(** Writing [v] under the mask into an array of zeros keeps the sum. *)
Lemma np_sum_mask_assign (f : Z → bool) (a v : list Z) :
  length v = length (mask_select (map f a) a) →
  np_sum (mask_assign (map f a) (map (λ _, 0) a) v) = np_sum v.
Proof.
  revert v. induction a as [|x a IH]; intros v Hv; simpl in *.
  - by destruct v.
  - destruct (f x); simpl in *.
    + destruct v as [|y v]; [done |]. simpl. rewrite IH by (simpl in Hv; lia). done.
    + by rewrite IH.
Qed.

Lemma mask_assign_length (m : list bool) (a v : list Z) :
  length (mask_assign m a v) = length a.
Proof.
  revert a v. induction m as [|b m IH]; intros a v; [done |].
  destruct a as [|x a]; [done |]. simpl.
  destruct b; [destruct v |]; simpl; by rewrite IH.
Qed.

Lemma np_sum_incr_above (t : Z) (a : list Z) :
  np_sum (imap (λ j x, if t <? Z.of_nat j then x + 1 else x) a)
  = np_sum a + above_count t (length a).
Proof.
  revert t. induction a as [|x a IH]; intros t.
  { unfold above_count. simpl. lia. }
  rewrite imap_cons.
  change (np_sum (?y :: ?l)) with (y + np_sum l).
  rewrite (imap_ext _ (λ j x, if (t - 1) <? Z.of_nat j then x + 1 else x)).
  2:{ intros j y _. simpl.
      destruct (Z.ltb_spec t (Z.of_nat (S j))), (Z.ltb_spec (t - 1) (Z.of_nat j));
        lia. }
  rewrite IH. unfold above_count. simpl length.
  destruct (Z.ltb_spec t (Z.of_nat 0)); lia.
Qed.

Lemma np_sum_div_mod (k : Z) (ps : list Z) :
  k ≠ 0 →
  np_sum ps = k * np_sum (map (λ p, p `div` k) ps) + np_sum (map (λ p, p `mod` k) ps).
Proof.
  intros Hk. induction ps as [|p ps IH]; [simpl; lia |]. simpl.
  rewrite IH at 1. pose proof (Z.div_mod p k Hk). lia.
Qed.

Lemma np_sum_mod_bounds (k : Z) (ps : list Z) :
  0 < k →
  0 ≤ np_sum (map (λ p, p `mod` k) ps) ≤ Z.of_nat (length ps) * (k - 1).
Proof.
  intros Hk. induction ps as [|p ps IH]; [simpl; lia |].
  change (np_sum (map _ (p :: ps))) with
    (p `mod` k + np_sum (map (λ p, p `mod` k) ps)).
  change (length (p :: ps)) with (S (length ps)).
  pose proof (Z.mod_pos_bound p k Hk). nia.
Qed.

Lemma np_sum_affine (T k : Z) (a : list Z) :
  np_sum (map (λ l, T - l * k) a) = T * Z.of_nat (length a) - k * np_sum a.
Proof.
  induction a as [|x a IH]; [simpl; lia |].
  change (np_sum (map _ (x :: a))) with
    (T - x * k + np_sum (map (λ l, T - l * k) a)).
  change (np_sum (x :: a)) with (x + np_sum a).
  change (length (x :: a)) with (S (length a)). rewrite IH. lia.
Qed.

(** [argmin] returns the first position of the least entry. *)
Lemma np_argmin_spec (a : list Z) :
  a ≠ [] →
  ∃ j m, np_argmin a = Some j ∧ a !! j = Some m ∧
         (∀ i x, a !! i = Some x → m ≤ x) ∧
         (∀ i x, (i < j)%nat → a !! i = Some x → m < x).
Proof.
  induction a as [|x a IH]; [done |]. intros _. simpl.
  destruct a as [|y a].
  - exists 0%nat, x. simpl. repeat split; try done.
    + intros [|i] z Hz; simpl in Hz; [injection Hz; lia | done].
    + intros; lia.
  - destruct IH as (j & m & -> & Hj & Hmin & Hfirst); [done |].
    rewrite Hj. destruct (Z.ltb_spec m x) as [Hlt | Hge].
    + exists (S j), m. repeat split; try done.
      * intros [|i] z Hz; simpl in Hz; [injection Hz; lia | by eapply Hmin].
      * intros [|i] z Hi Hz; simpl in Hz; [injection Hz; lia |].
        eapply (Hfirst i); [lia | done].
    + exists 0%nat, x. repeat split; try done.
      * intros [|i] z Hz; simpl in Hz; [injection Hz; lia |].
        specialize (Hmin i z Hz). lia.
      * intros; lia.
Qed.

(** What [a[m] = v] writes where: the entry at the [j]-th selected
    position is the [j]-th entry of [v]; the others stay zero. *)
Lemma mask_assign_imap (f : Z → bool) (g : nat → Z → Z) (a : list Z) :
  Forall2 (λ l p, if f l
                  then ∃ j, (j < length (mask_select (map f a) a))%nat ∧ p = g j l
                  else p = 0)
    a (mask_assign (map f a) (map (λ _, 0) a) (imap g (mask_select (map f a) a))).
Proof.
  revert g. induction a as [|x a IH]; intros g; [constructor |]. simpl.
  destruct (f x) eqn:Hfx; simpl.
  - constructor.
    + rewrite Hfx. exists 0%nat. split; [lia | done].
    + eapply Forall2_impl; [apply (IH (g ∘ S)) |].
      intros l p' Hp. simpl in Hp. destruct (f l); [| done].
      destruct Hp as (j & Hj & ->). exists (S j). split; [lia | done].
  - constructor; [by rewrite Hfx |]. apply IH.
Qed.

Lemma np_sum_nonneg (a : list Z) : Forall (λ x, 0 ≤ x) a → 0 ≤ np_sum a.
Proof. induction 1; simpl; lia. Qed.

Lemma np_sum_take_mono (a : list Z) (i j : nat) :
  Forall (λ x, 0 ≤ x) a → (i ≤ j)%nat → np_sum (take i a) ≤ np_sum (take j a).
Proof.
  intros Hpos Hij. replace j with (i + (j - i))%nat by lia.
  rewrite <- take_take_drop, np_sum_app.
  assert (0 ≤ np_sum (take (j - i) (drop i a))); [| lia].
  by apply np_sum_nonneg, Forall_take, Forall_drop.
Qed.

Lemma np_sum_take_S (a : list Z) (r : nat) (x : Z) :
  a !! r = Some x → np_sum (take (S r) a) = np_sum (take r a) + x.
Proof. intros Hx. rewrite (take_S_r _ _ _ Hx), np_sum_app. simpl. lia. Qed.

Lemma np_sum_replicate (n : nat) (x : Z) :
  np_sum (replicate n x) = Z.of_nat n * x.
Proof. induction n as [|n IH]; [done |]. simpl replicate. simpl np_sum. lia. Qed.

Lemma Forall_eq_replicate (a : list Z) (m : Z) :
  Forall (λ l, l = m) a → a = replicate (length a) m.
Proof. induction 1 as [|x a -> _ IH]; [done |]. simpl. by rewrite <- IH. Qed.

Lemma mask_select_all (f : Z → bool) (a : list Z) :
  Forall (λ x, f x = true) a → mask_select (map f a) a = a.
Proof. induction 1 as [|x a Hx _ IH]; [done |]. simpl. by rewrite Hx, IH. Qed.

Lemma np_sum_bounds (a : list Z) (lo hi : Z) :
  Forall (λ x, lo ≤ x ≤ hi) a →
  lo * Z.of_nat (length a) ≤ np_sum a ≤ hi * Z.of_nat (length a).
Proof.
  induction 1 as [|x a Hx _ IH]; [simpl; lia |].
  change (np_sum (x :: a)) with (x + np_sum a).
  change (length (x :: a)) with (S (length a)). lia.
Qed.

Lemma np_sum_two_levels (f : Z → bool) (a : list Z) (m : Z) :
  Forall (λ l, if f l then l = m else l = m + 1) a →
  np_sum a = (m + 1) * Z.of_nat (length a)
             - Z.of_nat (length (mask_select (map f a) a)).
Proof.
  induction 1 as [|x a Hx _ IH]; [simpl; lia |].
  change (np_sum (x :: a)) with (x + np_sum a).
  change (length (x :: a)) with (S (length a)). simpl mask_select.
  destruct (f x); simpl length; lia.
Qed.

Lemma zip_add_balanced (ld pt : list Z) (m : Z) :
  length pt = length ld →
  (∀ r l p, ld !! r = Some l → pt !! r = Some p → 0 ≤ p ∧ m ≤ l + p ≤ m + 1) →
  Forall (λ p, 0 ≤ p) pt ∧ balanced (zip_with Z.add ld pt).
Proof.
  intros Hlen Hpt. split.
  - apply Forall_lookup. intros r p Hp.
    destruct (lookup_lt_is_Some_2 ld r) as [l Hl].
    { apply lookup_lt_Some in Hp. lia. }
    by destruct (Hpt r l p Hl Hp).
  - exists m. apply Forall_lookup. intros r z Hz.
    apply lookup_zip_with_Some in Hz as (l & p & -> & Hl & Hp).
    by destruct (Hpt r l p Hl Hp).
Qed.

Lemma zip_add_le (ld pt : list Z) :
  length pt = length ld → Forall (λ p, 0 ≤ p) pt →
  Forall2 Z.le ld (zip_with Z.add ld pt).
Proof.
  intros Hlen Hpos. apply Forall2_same_length_lookup_2.
  - rewrite length_zip_with. lia.
  - intros r l z Hl Hz.
    apply lookup_zip_with_Some in Hz as (l' & p & -> & Hl' & Hp).
    assert (l' = l) as -> by congruence.
    pose proof (proj1 (Forall_lookup _ _) Hpos r p Hp). simpl in *. lia.
Qed.

(** * Properties of [LoadManager.assign] *)

Section LoadManagerProofs.

Context {K : Type} `{Countable K}.
Variable size : nat.

(** ** The rank lookup [rlist[i < cumpart][0]] *)

Lemma first_rank_above_Some (cumpart : list Z) (i r : nat) :
  first_rank_above size cumpart i = Some r ↔
  (r < size)%nat ∧ (∃ c, cumpart !! r = Some c ∧ Z.of_nat i < c) ∧
  ∀ r' c', (r' < r)%nat → cumpart !! r' = Some c' → c' ≤ Z.of_nat i.
Proof.
  unfold first_rank_above. rewrite head_mask_select_Some.
  setoid_rewrite Nat.sub_0_r. setoid_rewrite list_lookup_fmap. split.
  - intros (Hr & Hm & Hmin). split; [lia |]. split.
    + destruct (cumpart !! r) as [c|] eqn:Hc; [| done]. simpl in Hm.
      exists c. split; [done |]. injection Hm as Hm. lia.
    + intros r' c' Hr' Hc'. specialize (Hmin r' ltac:(lia)).
      rewrite Hc' in Hmin. simpl in Hmin. injection Hmin as Hmin. lia.
  - intros (Hr & (c & Hc & Hic) & Hmin). split; [lia |]. split.
    + rewrite Hc. simpl. f_equal. lia.
    + intros r' Hr'. destruct (cumpart !! r') as [c'|] eqn:Hc'.
      * simpl. f_equal. specialize (Hmin r' c' ltac:(lia) Hc'). lia.
      * apply lookup_ge_None in Hc'. apply lookup_lt_Some in Hc. lia.
Qed.

Lemma first_rank_above_is_Some (cumpart : list Z) (i r : nat) (c : Z) :
  (r < size)%nat → cumpart !! r = Some c → Z.of_nat i < c →
  is_Some (first_rank_above size cumpart i).
Proof.
  intros Hr Hc Hic. unfold first_rank_above.
  apply (head_mask_select_is_Some _ _ _ r); [done |].
  rewrite list_lookup_fmap, Hc. simpl. f_equal. lia.
Qed.

(** A later item is never given an earlier rank: the set of ranks whose
    boundary exceeds the index shrinks as the index grows. *)
Lemma first_rank_above_mono (cumpart : list Z) (i j r r' : nat) :
  (i ≤ j)%nat →
  first_rank_above size cumpart i = Some r →
  first_rank_above size cumpart j = Some r' →
  (r ≤ r')%nat.
Proof.
  intros Hij Hi Hj.
  apply first_rank_above_Some in Hi as (_ & _ & Hmin).
  apply first_rank_above_Some in Hj as (_ & (c' & Hc' & Hjc') & _).
  destruct (decide (r ≤ r')%nat) as [| Hlt]; [done |].
  specialize (Hmin r' c' ltac:(lia) Hc'). lia.
Qed.

(** ** The assignment loop *)

(** Appending to the last non-empty list appends to the concatenation. *)
Lemma concat_alter_snoc (out : list (list nat)) (r i : nat) :
  (r < length out)%nat →
  (∀ r' l, (r < r')%nat → out !! r' = Some l → l = []) →
  concat (alter (λ l, l ++ [i]) r out) = concat out ++ [i].
Proof.
  revert r. induction out as [|l out IH]; intros r Hr Hemp; simpl in *; [lia |].
  destruct r as [|r]; simpl.
  - assert (concat out = []) as ->.
    { clear IH Hr. induction out as [|l' out IH]; [done |]. simpl.
      rewrite (Hemp 1%nat l') by (done || lia). simpl. apply IH.
      intros r' l0 Hr' Hl0. destruct r' as [|r']; [lia |].
      apply (Hemp (S (S r'))); [lia | done]. }
    by rewrite !app_nil_r.
  - rewrite <- app_assoc. f_equal. apply IH; [lia |].
    intros r' l' Hr' Hl'. apply (Hemp (S r')); [lia | done].
Qed.

Lemma assign_loop_spec (cumpart : list Z) (ids : list K) (s r0 : nat)
    (out : list (list nat)) (ro : gmap K nat) :
  length out = size →
  concat out = seq 0 s →
  (∀ r l, (r0 < r)%nat → out !! r = Some l → l = []) →
  (∀ i r, (s ≤ i)%nat → first_rank_above size cumpart i = Some r → (r0 ≤ r)%nat) →
  (∀ i, (s ≤ i < s + length ids)%nat → is_Some (first_rank_above size cumpart i)) →
  ∃ out' ro',
    assign_loop size cumpart (enumerate_from s ids) out ro = Some (out', ro') ∧
    length out' = size ∧
    concat out' = seq 0 (s + length ids).
Proof.
  revert s r0 out ro.
  induction ids as [|k ids IH]; intros s r0 out ro Hlen Hcat Hemp Hlow Hsome; simpl.
  - exists out, ro. rewrite Nat.add_0_r. done.
  - destruct (Hsome s) as [r Hr]; [simpl; lia |]. rewrite Hr.
    assert (r < size)%nat as Hrs by (by apply first_rank_above_Some in Hr as (? & _)).
    assert (r0 ≤ r)%nat as Hr0 by (by apply (Hlow s r)).
    destruct (IH (S s) r (alter (λ l, l ++ [s]) r out) (<[k:=r]> ro))
      as (out' & ro' & Hloop & Hlen' & Hcat').
    + by rewrite length_alter.
    + rewrite concat_alter_snoc, Hcat, seq_S; [done | lia |].
      intros r' l Hr' Hl. apply (Hemp r' l); [lia | done].
    + intros r' l Hr' Hl. rewrite list_lookup_alter_ne in Hl by lia.
      apply (Hemp r' l); [lia | done].
    + intros i r' Hi Hr'. by apply (first_rank_above_mono cumpart s i); [lia | |].
    + intros i Hi. apply Hsome. simpl. lia.
    + exists out', ro'. split; [done |]. split; [done |].
      rewrite Hcat'. f_equal. simpl. lia.
Qed.

(** ** The arrays of the bulk branch *)

Section Bulk.

Variable ld : list Z.
Variable Nid : Z.

Let k := nsize size ld Nid.
Let sel := mask_select (li size ld Nid) ld.
Let base := map (λ p, np_floordiv p k) (partition size ld Nid).

Lemma nsize_sel : k = Z.of_nat (length sel).
Proof. unfold k, sel, nsize, li. by rewrite mask_count. Qed.

Lemma nsize_nonneg : 0 ≤ k.
Proof. rewrite nsize_sel. lia. Qed.

Lemma partition_length : length (partition size ld Nid) = length sel.
Proof. unfold partition. by rewrite length_map. Qed.

Lemma partition_sum : np_sum (partition size ld Nid) = k * Nid.
Proof.
  unfold partition. fold k sel. rewrite np_sum_affine. unfold total_load.
  fold sel. rewrite <- nsize_sel. lia.
Qed.

(** The remainder [rem] is exactly what the integer parts leave over, and it
    is smaller than the number of eligible ranks. *)
Lemma rem_spec : 0 < k → rem size ld Nid = Nid - np_sum base ∧ 0 ≤ rem size ld Nid < k.
Proof.
  intros Hk. unfold rem. fold k.
  rewrite np_floordiv_pos by done.
  rewrite (map_ext _ (λ p, p `mod` k)) by (intros; by apply np_mod_pos).
  pose proof (np_sum_div_mod k (partition size ld Nid) ltac:(lia)) as Hdm.
  pose proof (np_sum_mod_bounds k (partition size ld Nid) Hk) as Hb.
  rewrite partition_sum in Hdm. rewrite partition_length, <- nsize_sel in Hb.
  assert (base = map (λ p, p `div` k) (partition size ld Nid)) as Hbase.
  { unfold base. apply map_ext. intros; by apply np_floordiv_pos. }
  rewrite Hbase.
  set (D := np_sum (map (λ p, p `div` k) (partition size ld Nid))) in *.
  set (M := np_sum (map (λ p, p `mod` k) (partition size ld Nid))) in *.
  assert (M = k * (Nid - D)) as HM by lia.
  rewrite HM. rewrite Z.mul_comm, Z.div_mul by lia.
  split; [done |]. nia.
Qed.

Lemma ipart_length : length (ipart size ld Nid) = length sel.
Proof.
  unfold ipart, incr_rev_slice. by rewrite length_imap, length_map, partition_length.
Qed.

Lemma ipart_sum : 0 < k → np_sum (ipart size ld Nid) = Nid.
Proof.
  intros Hk. destruct (rem_spec Hk) as [Hrem Hb].
  unfold ipart, incr_rev_slice. fold k base.
  rewrite np_sum_incr_above.
  assert (Z.of_nat (length base) = k) as Hlb.
  { unfold base. rewrite length_map, partition_length. symmetry. apply nsize_sel. }
  unfold above_count, rev_slice_stop.
  destruct (Z.ltb_spec (- (1 + rem size ld Nid)) 0); lia.
Qed.

Lemma part_length : length (part size ld Nid) = length ld.
Proof. unfold part. by rewrite mask_assign_length, length_map. Qed.

Lemma part_sum_pos : 0 < k → np_sum (part size ld Nid) = Nid.
Proof.
  intros Hk. unfold part, li. rewrite np_sum_mask_assign.
  - by apply ipart_sum.
  - apply ipart_length.
Qed.

(** With at least one item, the least loaded rank is eligible. *)
Lemma nsize_pos : length ld = size → (0 < size)%nat → 1 ≤ Nid → 0 < k.
Proof.
  intros Hlen Hsize HN.
  destruct (min_le_mean ld) as (x & Hx & Hle).
  { intros ->. simpl in Hlen. lia. }
  assert (x ∈ sel) as Hsel.
  { unfold sel, li. apply elem_of_mask_select. split; [done |].
    unfold total_load0. rewrite Hlen in Hle. lia. }
  rewrite nsize_sel. destruct sel; [by apply elem_of_nil in Hsel | simpl; lia].
Qed.

(** The last cumulative boundary is the number of items, so every item
    index finds a rank. *)
Lemma first_rank_above_total (i : nat) :
  length ld = size → 0 < k → Z.of_nat i < Nid →
  is_Some (first_rank_above size (np_cumsum (part size ld Nid)) i).
Proof.
  intros Hlen Hk Hi.
  assert (0 < size)%nat as Hsize.
  { rewrite nsize_sel in Hk. destruct ld; [simpl in *; lia | simpl in Hlen; lia]. }
  apply (first_rank_above_is_Some _ _ (size - 1) Nid); [lia | | done].
  rewrite np_cumsum_lookup by (rewrite part_length; lia).
  replace (S (size - 1)) with (length (part size ld Nid))
    by (rewrite part_length; lia).
  by rewrite firstn_all, part_sum_pos.
Qed.

(** Entry by entry: an ineligible rank gets nothing, an eligible rank is
    brought to the level [total_load // nsize], or one above it when there
    is a remainder to spread. *)
Lemma part_spec :
  Forall2 (λ l p,
             if total_load0 ld Nid >? l * Z.of_nat size
             then 0 < k ∧
                  (p = total_load size ld Nid `div` k - l ∨
                   (p = total_load size ld Nid `div` k - l + 1 ∧
                    0 < rem size ld Nid))
             else p = 0)
    ld (part size ld Nid).
Proof.
  unfold part, ipart, incr_rev_slice, partition. fold k sel.
  rewrite length_map, length_map.
  rewrite <- list_fmap_compose, imap_fmap.
  set (t := rev_slice_stop (length sel) (- (1 + rem size ld Nid))).
  unfold sel, li.
  eapply Forall2_impl; [apply mask_assign_imap |].
  intros l p Hp. simpl in Hp.
  destruct (total_load0 ld Nid >? l * Z.of_nat size); [| done].
  destruct Hp as (j & Hj & ->).
  fold (li size ld Nid) in Hj. fold sel in Hj.
  assert (0 < k) as Hk by (rewrite nsize_sel; lia).
  split; [done |]. destruct (rem_spec Hk) as [_ Hb].
  rewrite np_floordiv_pos by done.
  replace (total_load size ld Nid - l * k)
    with (total_load size ld Nid + (- l) * k) by lia.
  rewrite Z.div_add by lia.
  unfold t, rev_slice_stop. rewrite <- nsize_sel.
  destruct (Z.ltb_spec (- (1 + rem size ld Nid)) 0); [| lia].
  destruct (Z.ltb_spec (Z.max (- (1 + rem size ld Nid) + k) (-1)) (Z.of_nat j)).
  - right. split; [lia |]. rewrite nsize_sel in *. lia.
  - left. lia.
Qed.

Lemma part_sum : length ld = size → (0 < size)%nat → 0 ≤ Nid →
  np_sum (part size ld Nid) = Nid.
Proof.
  intros Hlen Hsize HN. destruct (Z_lt_le_dec 0 k) as [Hk | Hk].
  - by apply part_sum_pos.
  - assert (Nid = 0) as HN0.
    { destruct (Z_lt_le_dec Nid 1) as [| HN1]; [lia |].
      pose proof (nsize_pos Hlen Hsize HN1). lia. }
    unfold part, li. rewrite np_sum_mask_assign by apply ipart_length.
    assert (length (ipart size ld Nid) = 0%nat) as Hnil.
    { rewrite ipart_length. pose proof nsize_sel. lia. }
    destruct (ipart size ld Nid); [simpl; lia | done].
Qed.

(** When the eligible ranks all carry the same load [m], each of them
    is offered [Nid // nsize] items and [Nid % nsize] items are left to
    spread. *)
Lemma uniform_sel (m : Z) :
  0 < k → Forall (λ l, l = m) sel →
  total_load size ld Nid = k * m + Nid ∧ rem size ld Nid = Nid `mod` k.
Proof.
  intros Hk Hm. apply Forall_eq_replicate in Hm.
  assert (total_load size ld Nid = k * m + Nid) as HT.
  { unfold total_load. fold sel. rewrite Hm, np_sum_replicate, <- nsize_sel. lia. }
  split; [done |]. destruct (rem_spec Hk) as [-> _].
  unfold base, partition. fold k sel. rewrite HT, Hm, !fmap_replicate.
  rewrite np_sum_replicate, <- nsize_sel, np_floordiv_pos by done.
  replace (k * m + Nid - m * k) with Nid by lia.
  pose proof (Z.div_mod Nid k ltac:(lia)). lia.
Qed.

End Bulk.

Lemma owns_alter_snoc (out : list (list nat)) (r0 s r i : nat) :
  owns (alter (λ l, l ++ [s]) r0 out) r i ↔
  owns out r i ∨ (r = r0 ∧ (r0 < length out)%nat ∧ i = s).
Proof.
  unfold owns. destruct (decide (r = r0)) as [-> | Hne].
  - rewrite list_lookup_alter_eq. split.
    + intros (l & Hl & Hi). destruct (out !! r0) as [l0|] eqn:Hl0; [| done].
      simpl in Hl. injection Hl as <-. apply elem_of_app in Hi as [Hi | Hi].
      * left. by exists l0.
      * right. apply list_elem_of_singleton in Hi. apply lookup_lt_Some in Hl0. done.
    + intros [(l & Hl & Hi) | (_ & Hlt & ->)].
      * exists (l ++ [s]). rewrite Hl. split; [done |]. apply elem_of_app. by left.
      * apply lookup_lt_is_Some in Hlt as [l0 Hl0]. exists (l0 ++ [s]).
        rewrite Hl0. split; [done |]. apply elem_of_app. right.
        by apply list_elem_of_singleton.
  - rewrite list_lookup_alter_ne by done. split; [by left |].
    intros [? | (? & _)]; done.
Qed.

(** Which rank owns which index after the loop. *)
Lemma assign_loop_owns (cumpart : list Z) (ids : list K) (s : nat)
    (out out' : list (list nat)) (ro ro' : gmap K nat) (r i : nat) :
  length out = size →
  assign_loop size cumpart (enumerate_from s ids) out ro = Some (out', ro') →
  owns out' r i ↔
  owns out r i ∨
  ((s ≤ i < s + length ids)%nat ∧ first_rank_above size cumpart i = Some r).
Proof.
  revert s out ro. induction ids as [|k ids IH]; intros s out ro Hlen Hloop; simpl in *.
  - injection Hloop as <- <-. split; [by left |]. intros [? | [? _]]; [done | lia].
  - destruct (first_rank_above size cumpart s) as [r0|] eqn:Hr0; [| done].
    assert (length (alter (λ l, l ++ [s]) r0 out) = size) as Hlen'
      by (by rewrite length_alter).
    rewrite (IH _ _ _ Hlen' Hloop), owns_alter_snoc.
    assert (r0 < length out)%nat as Hr0s.
    { rewrite Hlen. by apply first_rank_above_Some in Hr0 as (? & _). }
    split.
    + intros [[? | (-> & _ & ->)] | [Hi Hr]].
      * by left.
      * right. split; [lia | done].
      * right. split; [lia | done].
    + intros [? | [Hi Hr]]; [by left; left |].
      destruct (decide (i = s)) as [-> | Hne].
      * left; right. split; [congruence | done].
      * right. split; [lia | done].
Qed.

(** With non-negative shares the boundaries are increasing, and rank [r]
    is looked up exactly for the indices of its block. *)
Lemma first_rank_above_block (pt : list Z) (r i : nat) (p : Z) :
  length pt = size → Forall (λ x, 0 ≤ x) pt → pt !! r = Some p →
  first_rank_above size (np_cumsum pt) i = Some r ↔
  np_sum (take r pt) ≤ Z.of_nat i < np_sum (take r pt) + p.
Proof.
  intros Hlen Hpos Hp. rewrite first_rank_above_Some.
  assert (r < size)%nat as Hr by (apply lookup_lt_Some in Hp; lia).
  rewrite np_cumsum_lookup by lia. rewrite (np_sum_take_S _ _ _ Hp). split.
  - intros (_ & (c & [= <-] & Hic) & Hmin). split; [| done].
    destruct r as [|r]; [simpl; lia |].
    apply (Hmin r); [lia |]. apply np_cumsum_lookup. lia.
  - intros [Hlo Hhi]. split; [done |]. split; [by eexists |].
    intros r' c' Hr' Hc'. apply np_cumsum_lookup_inv in Hc' as [_ ->].
    pose proof (np_sum_take_mono pt (S r') r Hpos ltac:(lia)). lia.
Qed.

(** The bulk branch always returns, and the per-rank lists put end to end
    are the item indices in order. *)
Lemma assign_bulk_concat (lm : LoadManager K) (ids : list K) :
  length (load lm) = size → (0 < size)%nat →
  ∃ out lm',
    assign size lm (Some ids) = Some (out, lm') ∧
    length out = size ∧
    concat out = seq 0 (length ids) ∧
    load lm' = zip_with Z.add (load lm)
                 (part size (load lm) (Z.of_nat (length ids))) ∧
    assign_loop size (np_cumsum (part size (load lm) (Z.of_nat (length ids))))
      (enumerate ids) (replicate size []) (rank_of lm) = Some (out, rank_of lm').
Proof.
  intros Hlen Hsize. unfold assign.
  destruct (assign_loop_spec
              (np_cumsum (part size (load lm) (Z.of_nat (length ids))))
              ids 0 0 (replicate size []) (rank_of lm))
    as (out & ro & Hloop & Hlo & Hcat).
  - by rewrite length_replicate.
  - clear. induction size; [done | simpl; auto].
  - intros r l _ Hl. apply lookup_replicate in Hl as [-> _]. done.
  - intros; lia.
  - intros i Hi. destruct ids as [|k0 ids0] eqn:Hids; [simpl in Hi; lia |].
    rewrite <- Hids in *.
    apply first_rank_above_total; [done | | lia].
    apply nsize_pos; [done | done |]. rewrite Hids. simpl. lia.
  - unfold enumerate in *. rewrite Hloop. simpl. eauto 10.
Qed.

(** An index occurs in one list only when the concatenation has no
    duplicates. *)
Lemma NoDup_concat_unique (out : list (list nat)) (r r' i : nat) (l l' : list nat) :
  NoDup (concat out) →
  out !! r = Some l → out !! r' = Some l' → i ∈ l → i ∈ l' → r = r'.
Proof.
  revert r r'. induction out as [|l0 out IH]; intros r r' Hnd Hl Hl' Hi Hi'; [done |].
  simpl in Hnd. apply NoDup_app in Hnd as (_ & Hdisj & Hnd).
  assert (∀ q lq, out !! q = Some lq → i ∈ lq → i ∈ concat out) as Hin.
  { intros q lq Hq Hiq. apply list_elem_of_In, in_concat. exists lq.
    split; apply list_elem_of_In; [by eapply list_elem_of_lookup_2 | done]. }
  destruct r as [|r], r' as [|r']; simpl in *.
  - done.
  - injection Hl as ->. exfalso. eapply Hdisj; [done | by eapply Hin].
  - injection Hl' as ->. exfalso. eapply Hdisj; [done | by eapply Hin].
  - f_equal. by eapply IH.
Qed.

(** A segment of [0, 1, ..., n-1] is itself a run of consecutive numbers. *)
Lemma seq_middle (a l b : list nat) (n : nat) :
  a ++ l ++ b = seq 0 n → l = seq (length a) (length l).
Proof.
  intros Heq.
  assert (n = length a + (length l + length b))%nat as ->.
  { apply (f_equal length) in Heq. rewrite !length_app, length_seq in Heq. lia. }
  rewrite !seq_app in Heq. simpl in Heq.
  apply app_inj_1 in Heq as [_ Heq]; [| by rewrite length_seq].
  apply app_inj_1 in Heq as [Heq _]; [done | by rewrite length_seq].
Qed.

(** With non-negative shares, each rank receives as many indices as its
    share says. *)
Lemma assign_bulk_counts (lm : LoadManager K) (ids : list K) :
  length (load lm) = size → (0 < size)%nat →
  Forall (λ x, 0 ≤ x) (part size (load lm) (Z.of_nat (length ids))) →
  ∃ out lm',
    assign size lm (Some ids) = Some (out, lm') ∧
    length out = size ∧
    concat out = seq 0 (length ids) ∧
    Forall2 (λ l p, Z.of_nat (length l) = p)
      out (part size (load lm) (Z.of_nat (length ids))).
Proof.
  intros Hlen Hsize Hpos.
  destruct (assign_bulk_concat lm ids Hlen Hsize)
    as (out & lm' & Ha & Hlo & Hcat & _ & Hloop).
  exists out, lm'. split; [done |]. split; [done |]. split; [done |].
  set (pt := part size (load lm) (Z.of_nat (length ids))) in *.
  assert (length pt = size) as Hpt by (unfold pt; by rewrite part_length).
  apply Forall2_same_length_lookup_2; [lia |].
  intros r l p Hl Hp.
  assert (NoDup l) as Hnd.
  { rewrite (seq_middle (concat (take r out)) l (concat (drop (S r) out))
               (length ids)); [apply NoDup_seq |].
    rewrite <- Hcat. rewrite <- (take_drop_middle out r l Hl) at 3.
    by rewrite concat_app. }
  assert (0 ≤ p) as Hp0 by (by eapply (proj1 (Forall_lookup _ _) Hpos)).
  assert (0 ≤ np_sum (take r pt)) as Hc0 by (by apply np_sum_nonneg, Forall_take).
  assert (l ≡ₚ seq (Z.to_nat (np_sum (take r pt))) (Z.to_nat p)) as Hperm.
  { apply NoDup_Permutation; [done | apply NoDup_seq |].
    intros i. rewrite elem_of_seq.
    assert (i ∈ l ↔ owns out r i) as ->.
    { unfold owns. split; [intros; by exists l |].
      intros (l' & Hl' & Hi). congruence. }
    unfold enumerate in Hloop.
    rewrite (assign_loop_owns _ _ _ _ _ _ _ r i (length_replicate _ _) Hloop).
    rewrite (first_rank_above_block pt r i p Hpt Hpos Hp). split.
    - intros [(l0 & Hl0 & Hi) | [_ Hi]]; [| lia].
      apply lookup_replicate in Hl0 as [-> _]. by apply elem_of_nil in Hi.
    - intros Hi. right. split; [| lia].
      assert (np_sum (take r pt) + p ≤ Z.of_nat (length ids)); [| lia].
      rewrite <- (np_sum_take_S _ _ _ Hp).
      rewrite <- (part_sum (load lm) (Z.of_nat (length ids)) Hlen Hsize) by lia.
      fold pt. rewrite <- (firstn_all pt) at 2.
      apply np_sum_take_mono; [done |]. apply lookup_lt_Some in Hp. lia. }
  apply Permutation_length in Hperm. rewrite length_seq in Hperm. lia.
Qed.

(** ** C1: the result is a partition of the item indices *)

(** C1. A bulk call [assign(items)] with [N] items on a manager over [size]
    ranks returns [size] index lists in which every index below [N] occurs,
    nothing else occurs, and no index occurs twice, neither in two lists
    nor twice in one. *)
Theorem assign_partition (lm : LoadManager K) (ids : list K) :
  length (load lm) = size → (0 < size)%nat →
  ∃ out lm',
    assign size lm (Some ids) = Some (out, lm') ∧
    length out = size ∧
    (∀ i, (i < length ids)%nat ↔ ∃ r l, out !! r = Some l ∧ i ∈ l) ∧
    NoDup (concat out) ∧
    (∀ i r r' l l', out !! r = Some l → out !! r' = Some l' →
                    i ∈ l → i ∈ l' → r = r').
Proof.
  intros Hlen Hsize.
  destruct (assign_bulk_concat lm ids Hlen Hsize) as (out & lm' & Ha & Hlo & Hcat & _ & _).
  exists out, lm'. split; [done |]. split; [done |].
  assert (NoDup (concat out)) as Hnd by (rewrite Hcat; apply NoDup_seq).
  split; [| split; [done |]].
  - intros i. split.
    + intros Hi. assert (i ∈ concat out) as Hin.
      { rewrite Hcat. apply elem_of_seq. lia. }
      apply list_elem_of_In, in_concat in Hin as (l & Hl & Hil).
      apply list_elem_of_In, list_elem_of_lookup_1 in Hl as [r Hr].
      exists r, l. split; [done | by apply list_elem_of_In].
    + intros (r & l & Hr & Hil).
      assert (i ∈ concat out) as Hin.
      { apply list_elem_of_In, in_concat. exists l.
        split; apply list_elem_of_In; [by eapply list_elem_of_lookup_2 | done]. }
      rewrite Hcat in Hin. apply elem_of_seq in Hin. lia.
  - intros i r r' l l'. by apply NoDup_concat_unique.
Qed.

(** ** C8: contiguous blocks in rank order *)

(** C8. The index lists returned by a bulk call, put end to end in rank
    order, are exactly 0, 1, ..., N-1, and the list of each rank is a run of
    consecutive indices starting where the lists of the lower ranks end. *)
Theorem assign_order_preserving (lm : LoadManager K) (ids : list K) :
  length (load lm) = size → (0 < size)%nat →
  ∃ out lm',
    assign size lm (Some ids) = Some (out, lm') ∧
    concat out = seq 0 (length ids) ∧
    ∀ r l, out !! r = Some l →
           l = seq (length (concat (take r out))) (length l).
Proof.
  intros Hlen Hsize.
  destruct (assign_bulk_concat lm ids Hlen Hsize) as (out & lm' & Ha & Hlo & Hcat & _ & _).
  exists out, lm'. split; [done |]. split; [done |].
  intros r l Hr. apply (seq_middle _ _ (concat (drop (S r) out)) (length ids)).
  rewrite <- Hcat. rewrite <- (take_drop_middle out r l Hr) at 3.
  by rewrite concat_app.
Qed.

(** ** C7: the allocator never divides by zero or looks up an empty set *)


(** ** The anonymous request *)

Lemma assign_anonymous_spec (lm : LoadManager K) :
  length (load lm) = size → (0 < size)%nat →
  ∃ r m out,
    (r < size)%nat ∧
    load lm !! r = Some m ∧
    (∀ r' x, load lm !! r' = Some x → m ≤ x) ∧
    (∀ r' x, (r < r')%nat → load lm !! r' = Some x → m < x) ∧
    assign size lm None
      = Some (out, {| load := <[r := m + 1]> (load lm); rank_of := rank_of lm |}) ∧
    length out = size ∧
    (∀ rr, (rr < size)%nat →
           out !! rr = Some (if decide (rr = r) then [0%nat] else [])).
Proof.
  intros Hlen Hsize.
  destruct (np_argmin_spec (reverse (load lm))) as (j & m & Harg & Hj & Hmin & Hfirst).
  { intros Hnil. apply (f_equal length) in Hnil.
    rewrite length_reverse, Hlen in Hnil. simpl in Hnil. lia. }
  assert (j < size)%nat as Hjs.
  { apply lookup_lt_Some in Hj. by rewrite length_reverse, Hlen in Hj. }
  assert (∀ i, (i < size)%nat → reverse (load lm) !! i = load lm !! (size - S i)%nat)
    as Hrev.
  { intros i Hi. rewrite reverse_lookup by lia. by rewrite Hlen. }
  set (r := (size - S j)%nat).
  exists r, m, (map (λ rr, if Z.of_nat rr =? Z.of_nat r then [0%nat] else [])
                    (seq 0 size)).
  assert (load lm !! r = Some m) as Hr by (unfold r; by rewrite <- Hrev).
  split; [unfold r; lia |]. split; [done |]. split; [| split; [| split; [| split]]].
  - intros r' x Hx. assert (r' < size)%nat as Hr'.
    { apply lookup_lt_Some in Hx. lia. }
    apply (Hmin (size - S r')%nat). rewrite Hrev by lia.
    by replace (size - S (size - S r'))%nat with r' by lia.
  - intros r' x Hlt Hx. assert (r' < size)%nat as Hr'.
    { apply lookup_lt_Some in Hx. lia. }
    apply (Hfirst (size - S r')%nat); [unfold r in Hlt; lia |]. rewrite Hrev by lia.
    by replace (size - S (size - S r'))%nat with r' by lia.
  - unfold assign. rewrite Harg. simpl.
    replace (Z.of_nat size - 1 - Z.of_nat j) with (Z.of_nat r) by (unfold r; lia).
    unfold py_index. rewrite Hlen.
    destruct (Z.leb_spec 0 (Z.of_nat r)); [| lia].
    destruct (Z.ltb_spec (Z.of_nat r) (Z.of_nat size)); [| unfold r in *; lia].
    simpl. rewrite Nat2Z.id. do 3 f_equal.
    apply list_eq. intros i. destruct (decide (i = r)) as [-> | Hne].
    + rewrite list_lookup_alter_eq, list_lookup_insert_eq, Hr; [done |].
      by apply lookup_lt_Some in Hr.
    + by rewrite list_lookup_alter_ne, list_lookup_insert_ne.
  - by rewrite length_map, length_seq.
  - intros rr Hrr. rewrite list_lookup_fmap, lookup_seq_lt by done. simpl.
    destruct (Z.eqb_spec (Z.of_nat rr) (Z.of_nat r)); destruct (decide (rr = r));
      (done || lia).
Qed.

(** ** Equal starting loads *)

Lemma part_equal_load (L Nid : Z) :
  (0 < size)%nat → 0 ≤ Nid →
  Forall (λ p, p = Nid `div` Z.of_nat size ∨
               (p = Nid `div` Z.of_nat size + 1 ∧ 0 < Nid `mod` Z.of_nat size))
    (part size (replicate size L) Nid).
Proof.
  intros Hsize HN. set (ld := replicate size L).
  assert (length ld = size) as Hlen by apply length_replicate.
  assert (np_sum ld = Z.of_nat size * L) as Hsum by apply np_sum_replicate.
  apply Forall_lookup. intros r p Hp.
  destruct (Forall2_lookup_r _ _ _ _ _ (part_spec ld Nid) Hp) as (l & Hl & Hlp).
  apply lookup_replicate in Hl as [-> _].
  unfold total_load0 in Hlp. rewrite Hsum in Hlp.
  destruct (Z.gtb_spec (Z.of_nat size * L + Nid) (L * Z.of_nat size)) as [Hel | Hnel].
  - assert (mask_select (li size ld Nid) ld = ld) as Hsel.
    { unfold li. apply mask_select_all, Forall_forall. intros x Hx.
      apply elem_of_replicate in Hx as [-> _]. unfold total_load0. rewrite Hsum.
      apply Z.gtb_gt. lia. }
    assert (nsize size ld Nid = Z.of_nat size) as Hk
      by (by rewrite nsize_sel, Hsel, Hlen).
    destruct (uniform_sel ld Nid L) as [HT Hrem].
    { rewrite Hk. lia. }
    { rewrite Hsel. apply Forall_forall. intros x Hx.
      by apply elem_of_replicate in Hx as [-> _]. }
    rewrite HT, Hrem, Hk in Hlp. destruct Hlp as [_ Hlp].
    replace (Z.of_nat size * L + Nid) with (L * Z.of_nat size + Nid) in Hlp by lia.
    rewrite Z.div_add_l in Hlp by lia. lia.
  - subst p. left. assert (Nid = 0) as -> by lia. by rewrite Z.div_0_l by lia.
Qed.

Lemma assign_fair_general (L : Z) (ro : gmap K nat) (ids : list K) :
  (0 < size)%nat →
  let N := Z.of_nat (length ids) in
  let P := Z.of_nat size in
  ∃ out lm',
    assign size {| load := replicate size L; rank_of := ro |} (Some ids)
      = Some (out, lm') ∧
    length out = size ∧
    (∀ r l, out !! r = Some l →
            Z.of_nat (length l) = N `div` P ∨
            (Z.of_nat (length l) = N `div` P + 1 ∧ N `mod` P ≠ 0)) ∧
    (∀ r r' l l', out !! r = Some l → out !! r' = Some l' →
                  Z.abs (Z.of_nat (length l) - Z.of_nat (length l')) ≤ 1) ∧
    length (concat out) = length ids.
Proof.
  intros Hsize N P.
  pose proof (part_equal_load L N Hsize ltac:(lia)) as Hpart.
  destruct (assign_bulk_counts {| load := replicate size L; rank_of := ro |} ids)
    as (out & lm' & Ha & Hlo & Hcat & Hcnt).
  { apply length_replicate. }
  { done. }
  { simpl. eapply Forall_impl; [apply Hpart |]. intros p Hp. simpl in Hp.
    pose proof (Z.div_pos N (Z.of_nat size) ltac:(lia) ltac:(lia)).
    fold N. lia. }
  simpl in Hcnt. fold N in Hcnt.
  assert (∀ r l, out !! r = Some l →
            Z.of_nat (length l) = N `div` P ∨
            (Z.of_nat (length l) = N `div` P + 1 ∧ N `mod` P ≠ 0)) as Hshare.
  { intros r l Hl.
    destruct (Forall2_lookup_l _ _ _ _ _ Hcnt Hl) as (p & Hp & ->).
    pose proof (proj1 (Forall_lookup _ _) Hpart r p Hp) as Hq. simpl in Hq.
    fold P in Hq. lia. }
  exists out, lm'. split; [done |]. split; [done |]. split; [done |]. split.
  - intros r r' l l' Hl Hl'.
    pose proof (Hshare r l Hl). pose proof (Hshare r' l' Hl'). lia.
  - by rewrite Hcat, length_seq.
Qed.

(** ** Balanced loads *)

(** From a balanced load array the bulk branch hands out non-negative
    shares and leaves the array balanced. *)
Lemma part_balanced (ld : list Z) (Nid : Z) :
  length ld = size → 0 ≤ Nid → balanced ld →
  Forall (λ p, 0 ≤ p) (part size ld Nid) ∧
  balanced (zip_with Z.add ld (part size ld Nid)).
Proof.
  intros Hlen HN [m Hbal].
  set (f := λ l, total_load0 ld Nid >? l * Z.of_nat size).
  assert (∀ r l p, ld !! r = Some l → part size ld Nid !! r = Some p →
            if f l
            then 0 < nsize size ld Nid ∧
                 (p = total_load size ld Nid `div` nsize size ld Nid - l ∨
                  (p = total_load size ld Nid `div` nsize size ld Nid - l + 1 ∧
                   0 < rem size ld Nid))
            else p = 0) as Hspec.
  { intros r l p Hl Hp.
    apply (Forall2_lookup_lr _ _ _ _ _ _ (part_spec ld Nid) Hl Hp). }
  pose proof (nsize_nonneg ld Nid) as Hk0.
  pose proof (nsize_sel ld Nid) as Hksel.
  pose proof (np_sum_bounds ld m (m + 1) Hbal) as Hsum. rewrite Hlen in Hsum.
  assert (∀ l, l ∈ ld → m ≤ l ≤ m + 1) as Hin by (by apply Forall_forall).
  assert (∀ l, f l = true ↔ np_sum ld + Nid > l * Z.of_nat size) as Hf.
  { intros l. unfold f, total_load0. apply Z.gtb_gt. }
  assert (∃ m', ∀ r l p, ld !! r = Some l → part size ld Nid !! r = Some p →
                         0 ≤ p ∧ m' ≤ l + p ≤ m' + 1) as [m' Hm'];
    [| by apply (zip_add_balanced _ _ m'); [rewrite part_length |]].
  destruct (Z_lt_le_dec 0 (nsize size ld Nid)) as [Hk | Hk].
  - destruct (decide (Forall (λ l, f l = true) ld)) as [Hall | Hnall].
    + (* every rank is eligible *)
      assert (mask_select (li size ld Nid) ld = ld) as Hsel
        by (by apply mask_select_all).
      assert (nsize size ld Nid = Z.of_nat size) as Hks
        by (by rewrite Hksel, Hsel, Hlen).
      assert (total_load size ld Nid = np_sum ld + Nid) as HT
        by (unfold total_load; by rewrite Hsel).
      exists (total_load size ld Nid `div` nsize size ld Nid).
      intros r l p Hl Hp.
      pose proof (Hspec r l p Hl Hp) as Hlp.
      assert (f l = true) as Hfl.
      { apply (proj1 (Forall_forall _ _) Hall). by eapply list_elem_of_lookup_2. }
      rewrite Hfl in Hlp. destruct Hlp as [_ Hlp]. apply Hf in Hfl.
      assert (l ≤ total_load size ld Nid `div` nsize size ld Nid).
      { rewrite HT, Hks. apply Z.div_le_lower_bound; lia. }
      lia.
    + (* some rank is not eligible: the eligible ones are at the lower level *)
      apply not_Forall_Exists in Hnall; [| intros; apply _].
      apply Exists_exists in Hnall as (l0 & Hl0 & Hfl0).
      simpl in Hfl0. apply not_true_is_false in Hfl0.
      assert (np_sum ld + Nid ≤ l0 * Z.of_nat size) as Hl0le.
      { destruct (Z_le_gt_dec (np_sum ld + Nid) (l0 * Z.of_nat size)) as [| Hgt];
          [done |]. apply Hf in Hgt. congruence. }
      pose proof (Hin l0 Hl0) as Hl0b.
      assert (∃ x, x ∈ ld ∧ f x = true) as (x0 & Hx0 & Hfx0).
      { destruct (mask_select (li size ld Nid) ld) as [|x sel'] eqn:Hsel;
          [simpl in Hksel; lia |].
        exists x. apply (elem_of_mask_select f). unfold li in Hsel. fold f in Hsel.
        rewrite Hsel. apply list_elem_of_here. }
      pose proof (Hin x0 Hx0) as Hx0b. apply Hf in Hfx0.
      assert (Forall (λ l, if f l then l = m else l = m + 1) ld) as Hlev.
      { apply Forall_forall. intros l Hl. pose proof (Hin l Hl) as Hlb.
        destruct (f l) eqn:Hfl.
        - apply Hf in Hfl. nia.
        - destruct (Z_le_gt_dec (np_sum ld + Nid) (l * Z.of_nat size)) as [| Hgt];
            [nia |]. apply Hf in Hgt. congruence. }
      pose proof (np_sum_two_levels f ld m Hlev) as Hsplit.
      unfold li in Hksel. fold f in Hksel. rewrite <- Hksel, Hlen in Hsplit.
      assert (Nid ≤ nsize size ld Nid) as HNk by nia.
      destruct (uniform_sel ld Nid m Hk) as [HT Hrem].
      { apply Forall_forall. intros x Hx. unfold li in Hx. fold f in Hx.
        apply elem_of_mask_select in Hx as [Hx Hfx].
        pose proof (proj1 (Forall_forall _ _) Hlev x Hx) as Hxl. simpl in Hxl.
        by rewrite Hfx in Hxl. }
      exists m. intros r l p Hl Hp.
      pose proof (Hspec r l p Hl Hp) as Hlp.
      pose proof (proj1 (Forall_forall _ _) Hlev l
                    (list_elem_of_lookup_2 _ _ _ Hl)) as Hll. simpl in Hll.
      destruct (f l) eqn:Hfl.
      * rewrite HT, Hrem in Hlp. destruct Hlp as [_ Hlp].
        replace (nsize size ld Nid * m + Nid)
          with (m * nsize size ld Nid + Nid) in Hlp by lia.
        rewrite Z.div_add_l in Hlp by lia.
        destruct (Z_lt_le_dec Nid (nsize size ld Nid)) as [Hlt | Hge].
        -- rewrite Z.div_small in Hlp by lia. lia.
        -- assert (Nid `div` nsize size ld Nid = 1) as Hd.
           { symmetry. apply (Z.div_unique _ _ 1 0); lia. }
           assert (Nid `mod` nsize size ld Nid = 0) as Hmd.
           { symmetry. apply (Z.mod_unique _ _ 1 0); lia. }
           rewrite Hd, Hmd in Hlp. lia.
      * lia.
  - (* no rank is eligible: nothing is handed out *)
    exists m. intros r l p Hl Hp.
    pose proof (Hspec r l p Hl Hp) as Hlp.
    pose proof (Hin l (list_elem_of_lookup_2 _ _ _ Hl)).
    destruct (f l); lia.
Qed.

(** One call on a balanced manager: it returns, no load decreases, and the
    manager stays balanced. *)
Lemma assign_step_balanced (lm : LoadManager K) (c : option (list K)) :
  length (load lm) = size → (0 < size)%nat → balanced (load lm) →
  ∃ out lm',
    assign size lm c = Some (out, lm') ∧
    length (load lm') = size ∧
    balanced (load lm') ∧
    Forall2 Z.le (load lm) (load lm').
Proof.
  intros Hlen Hsize Hbal. destruct c as [ids |].
  - destruct (assign_bulk_concat lm ids Hlen Hsize)
      as (out & lm' & Ha & _ & _ & Hld & _).
    destruct (part_balanced (load lm) (Z.of_nat (length ids)) Hlen ltac:(lia) Hbal)
      as [Hpos Hbal'].
    exists out, lm'. rewrite Hld. split; [done |]. split; [| split; [done |]].
    + rewrite length_zip_with, part_length. lia.
    + apply zip_add_le; [by rewrite part_length | done].
  - destruct (assign_anonymous_spec lm Hlen Hsize)
      as (r & m & out & Hr & Hm & Hmin & _ & Ha & _).
    eexists _, _. split; [exact Ha |]. simpl.
    split; [by rewrite length_insert |]. split.
    + destruct Hbal as [m0 Hbal].
      pose proof (proj1 (Forall_lookup _ _) Hbal r m Hm) as Hmb. simpl in Hmb.
      destruct (decide (m = m0)) as [-> | Hne].
      * exists m0. apply Forall_insert; [done | lia].
      * exists (m0 + 1). apply Forall_insert; [| lia].
        apply Forall_lookup. intros r' x Hx.
        pose proof (Hmin r' x Hx).
        pose proof (proj1 (Forall_lookup _ _) Hbal r' x Hx) as Hxb. simpl in Hxb. lia.
    + apply Forall2_same_length_lookup_2; [by rewrite length_insert |].
      intros i x y Hx Hy. destruct (decide (i = r)) as [-> | Hne].
      * rewrite list_lookup_insert_eq in Hy by (by apply lookup_lt_Some in Hm).
        assert (x = m) by congruence. injection Hy as <-. lia.
      * rewrite list_lookup_insert_ne in Hy by done.
        assert (x = y) by congruence. lia.
Qed.

Lemma run_assigns_balanced (lm : LoadManager K) (calls : list (option (list K))) :
  length (load lm) = size → (0 < size)%nat → balanced (load lm) →
  ∃ lm',
    run_assigns size lm calls = Some lm' ∧
    length (load lm') = size ∧
    balanced (load lm') ∧
    Forall2 Z.le (load lm) (load lm').
Proof.
  revert lm. induction calls as [|c calls IH]; intros lm Hlen Hsize Hbal; simpl.
  - exists lm. split; [done |]. split; [done |]. split; [done |].
    apply Forall2_same_length_lookup_2; [done |]. intros i x y Hx Hy.
    assert (x = y) by congruence. lia.
  - destruct (assign_step_balanced lm c Hlen Hsize Hbal)
      as (out & lm1 & -> & Hlen1 & Hbal1 & Hle1).
    destruct (IH lm1 Hlen1 Hsize Hbal1) as (lm2 & Hrun & Hlen2 & Hbal2 & Hle2).
    exists lm2. split; [done |]. split; [done |]. split; [done |].
    eapply Forall2_trans; [| exact Hle1 | exact Hle2]. intros x y z. apply Z.le_trans.
Qed.

(** ** C2: no call decreases a load *)

(** C2 (as the code has it). Take a manager in any state that calls of
    [assign], anonymous or bulk in any order, can have brought a new manager
    to, and apply any further sequence of calls: every call returns, and
    afterwards the load of every rank is at least what it was before. *)
Theorem load_monotone (history calls : list (option (list K))) :
  (0 < size)%nat →
  ∃ lm lm',
    run_assigns size (LoadManager_init size) history = Some lm ∧
    run_assigns size lm calls = Some lm' ∧
    Forall2 Z.le (load lm) (load lm').
Proof.
  intros Hsize.
  destruct (run_assigns_balanced (LoadManager_init size) history)
    as (lm & Hrun & Hlen & Hbal & _).
  { apply length_replicate. }
  { done. }
  { exists 0. simpl. apply Forall_forall. intros x Hx.
    apply elem_of_replicate in Hx as [-> _]. lia. }
  destruct (run_assigns_balanced lm calls Hlen Hsize Hbal)
    as (lm' & Hrun' & _ & _ & Hle).
  by exists lm, lm'.
Qed.

End LoadManagerProofs.

(** ** C5: the anonymous request and its tie-break *)

(** C5. An anonymous call picks the highest-indexed rank among those with
    the least load, adds exactly one to its load, returns the list [[0]] at
    that rank and empty lists elsewhere, and leaves [rank_of] as it was; with
    four ranks and loads 2, 1, 1, 3 the rank is 2 and the loads become
    2, 1, 2, 3. *)
Theorem assign_anonymous_tie_break {K : Type} `{Countable K} :
  (∀ (size : nat) (lm : LoadManager K),
     length (load lm) = size → (0 < size)%nat →
     ∃ r m out,
       (r < size)%nat ∧
       load lm !! r = Some m ∧
       (∀ r' x, load lm !! r' = Some x → m ≤ x) ∧
       (∀ r' x, (r < r')%nat → load lm !! r' = Some x → m < x) ∧
       assign size lm None
         = Some (out, {| load := <[r := m + 1]> (load lm);
                         rank_of := rank_of lm |}) ∧
       length out = size ∧
       (∀ rr, (rr < size)%nat →
              out !! rr = Some (if decide (rr = r) then [0%nat] else []))) ∧
  (∀ ro : gmap K nat,
     assign 4 {| load := [2; 1; 1; 3]; rank_of := ro |} None
     = Some ([[]; []; [0%nat]; []], {| load := [2; 1; 2; 3]; rank_of := ro |})).
Proof.
  split.
  - intros size lm. apply assign_anonymous_spec.
  - intros ro. reflexivity.
Qed.

Lemma assign_anonymous_tie_break_witness :
  ∃ r m out,
    (r < 3)%nat ∧
    [5; 4; 4] !! r = Some m ∧
    (∀ r' x, [5; 4; 4] !! r' = Some x → m ≤ x) ∧
    (∀ r' x, (r < r')%nat → [5; 4; 4] !! r' = Some x → m < x) ∧
    assign 3 {| load := [5; 4; 4]; rank_of := (∅ : gmap nat nat) |} None
      = Some (out, {| load := <[r := m + 1]> [5; 4; 4]; rank_of := ∅ |}) ∧
    length out = 3%nat ∧
    (∀ rr, (rr < 3)%nat →
           out !! rr = Some (if decide (rr = r) then [0%nat] else [])).
Proof.
  apply (proj1 (assign_anonymous_tie_break (K := nat)) 3%nat
           {| load := [5; 4; 4]; rank_of := ∅ |}); [reflexivity | lia].
Defined.

(** ** C6: fairness from equal loads *)

(** C6. When all ranks carry the same load and [N] items are assigned, every
    rank receives the quotient of [N] by the number of ranks, or one more,
    the latter only if the division leaves a remainder; any two ranks differ
    by at most one item and the shares add up to [N]. With three ranks at
    load 0 and seven items the shares are 2, 2 and 3. *)
Theorem assign_fair {K : Type} `{Countable K} :
  (∀ (size : nat) (L : Z) (ro : gmap K nat) (ids : list K),
     (0 < size)%nat →
     let N := Z.of_nat (length ids) in
     let P := Z.of_nat size in
     ∃ out lm',
       assign size {| load := replicate size L; rank_of := ro |} (Some ids)
         = Some (out, lm') ∧
       length out = size ∧
       (∀ r l, out !! r = Some l →
               Z.of_nat (length l) = N `div` P ∨
               (Z.of_nat (length l) = N `div` P + 1 ∧ N `mod` P ≠ 0)) ∧
       (∀ r r' l l', out !! r = Some l → out !! r' = Some l' →
                     Z.abs (Z.of_nat (length l) - Z.of_nat (length l')) ≤ 1) ∧
       length (concat out) = length ids) ∧
  (∀ (ro : gmap K nat) (ids : list K),
     length ids = 7%nat →
     ∃ out lm',
       assign 3 {| load := [0; 0; 0]; rank_of := ro |} (Some ids)
         = Some (out, lm') ∧
       out = [[0; 1]; [2; 3]; [4; 5; 6]]%nat ∧
       load lm' = [2; 2; 3]).
Proof.
  split.
  - intros size L ro ids. apply assign_fair_general.
  - intros ro ids Hlen.
    do 8 (destruct ids as [|? ids]; try discriminate Hlen).
    eexists _, _. split; [reflexivity |]. split; reflexivity.
Qed.

Lemma assign_fair_witness :
  ∃ out lm',
    assign 2 {| load := replicate 2 4; rank_of := (∅ : gmap nat nat) |}
      (Some [10; 11; 12]%nat) = Some (out, lm') ∧
    length out = 2%nat ∧
    (∀ r l, out !! r = Some l →
            Z.of_nat (length l) = 3 `div` 2 ∨
            (Z.of_nat (length l) = 3 `div` 2 + 1 ∧ 3 `mod` 2 ≠ 0)) ∧
    (∀ r r' l l', out !! r = Some l → out !! r' = Some l' →
                  Z.abs (Z.of_nat (length l) - Z.of_nat (length l')) ≤ 1) ∧
    length (concat out) = 3%nat.
Proof.
  apply (proj1 (assign_fair (K := nat)) 2%nat 4 ∅ [10; 11; 12]%nat). lia.
Defined.

(** * Properties of the collective operations *)

(** ** 64-bit wrap-around *)

Lemma wrap64_id (x : Z) : - 2 ^ 63 ≤ x < 2 ^ 63 → wrap64 x = x.
Proof. intros Hx. unfold wrap64. rewrite Z.mod_small; lia. Qed.

Lemma wrap64_range (x : Z) : - 2 ^ 63 ≤ wrap64 x < 2 ^ 63.
Proof.
  unfold wrap64.
  pose proof (Z.mod_pos_bound (x + 2 ^ 63) (2 ^ 64) ltac:(lia)). lia.
Qed.

Lemma wrap64_mod (x : Z) : wrap64 x `mod` 2 ^ 64 = x `mod` 2 ^ 64.
Proof.
  unfold wrap64. rewrite Zminus_mod_idemp_l. f_equal. lia.
Qed.

Lemma wrap64_congr (x y : Z) :
  x `mod` 2 ^ 64 = y `mod` 2 ^ 64 → wrap64 x = wrap64 y.
Proof.
  intros H. unfold wrap64. f_equal.
  rewrite <- (Zplus_mod_idemp_l x), <- (Zplus_mod_idemp_l y). by rewrite H.
Qed.

(** The sum and the product of an array always exist. *)
Lemma mapM_npop_total (o : Op) (l : list (list Z)) :
  o = SUM ∨ o = PROD →
  mapM (npop o) l
  = Some ((match o with SUM => wrap64 ∘ np_sum | _ => wrap64 ∘ np_prod end)
            <$> l).
Proof.
  intros Ho. apply mapM_Some. apply Forall2_fmap_r, Forall_Forall2_diag.
  apply Forall_forall. intros x _. by destruct Ho as [-> | ->].
Qed.

Section CollectiveOpsProofs.

Context {World mpi_op : Type}.
Variable M : MPI_module mpi_op.
Variable comm_Allreduce : option mpi_op → pyval → World → pyval * World.
Variable comm_Barrier : World → World.
Variable npop_gen : Op → list (list Z) → option pyval.

Lemma op_table_names :
  op_table (Some M) "SUM" = Some (MPI_SUM M, SUM) ∧
  op_table (Some M) "MIN" = Some (MPI_MIN M, MIN) ∧
  op_table (Some M) "MAX" = Some (MPI_MAX M, MAX) ∧
  op_table (Some M) "PROD" = Some (MPI_PROD M, PROD).
Proof. repeat split. Qed.

(** With MPI disabled [_MPIop] is the local reduction and the communicator
    is not used. *)
Lemma MPIop_disabled (a : list (option (list Z))) (name : string)
    (axis : option Z) (w : World) (mo : mpi_op) (o : Op) :
  op_table (Some M) name = Some (mo, o) →
  _MPIop (Some M) false comm_Allreduce npop_gen a name axis w
  = (λ v, (v, w)) <$> local_reduce npop_gen o a axis.
Proof.
  intros Hop. unfold _MPIop, local_reduce. rewrite Hop. simpl.
  destruct axis as [ax |].
  - destruct (ax =? 0).
    + by destruct (npop_gen o (present a)).
    + by destruct (mapM _ a).
  - destruct (mapM (npop o) (present a)) as [locals |]; [| done]. simpl.
    by destruct (npop o locals).
Qed.

(** An operation name outside the table raises KeyError. *)
Lemma MPIop_unknown (a : list (option (list Z))) (name : string)
    (axis : option Z) (w : World) :
  op_table (Some M) name = None →
  _MPIop (Some M) false comm_Allreduce npop_gen a name axis w = None.
Proof. intros Hop. unfold _MPIop. by rewrite Hop. Qed.

End CollectiveOpsProofs.

(** ** C9: one participating rank *)

(** C9 (as the code has it). With MPI loaded but disabled, as when one rank
    participates, [allreduce] leaves the caller's array as it is and
    [barrier] returns at once, neither touching the communicator. The
    reductions do not touch it either, whatever the axis argument: their
    result is the same under any communicator and the surroundings are
    left as they were. They do not return their input: whenever a
    reduction returns, with [axis=None] the result is a single number
    ([MPIsum] and [MPIprod] always return one), which is the local value
    itself when the rank holds a single int64 number; with an axis other
    than [None] and [0] it is a list with one entry per entry of the input,
    [None] where the input has [None]; with [axis=0] it is what numpy's
    function returns for the generator of the present entries, which is
    not determined here. *)
Theorem single_rank_collectives {World mpi_op : Type} (M : MPI_module mpi_op)
    (comm_Allreduce : option mpi_op → pyval → World → pyval * World)
    (comm_Barrier : World → World)
    (npop_gen : Op → list (list Z) → option pyval) :
  (∀ a op w, allreduce false comm_Allreduce a op w = (a, w)) ∧
  (∀ w, barrier false comm_Barrier w = w) ∧
  (∀ comm' a name axis w,
     _MPIop (Some M) false comm_Allreduce npop_gen a name axis w
     = _MPIop (Some M) false comm' npop_gen a name axis w) ∧
  (∀ a name axis w r w',
     _MPIop (Some M) false comm_Allreduce npop_gen a name axis w
       = Some (r, w') →
     w' = w ∧
     match axis with
     | None => ∃ x, r = VScalar x
     | Some ax =>
         if ax =? 0 then
           ∃ mo o, op_table (Some M) name = Some (mo, o) ∧
                   npop_gen o (present a) = Some r
         else
           ∃ l, r = VScalars l ∧ length l = length a ∧
                ∀ i, a !! i = Some None → l !! i = Some None
     end) ∧
  (∀ a w,
     (∃ x, MPIsum (Some M) false comm_Allreduce npop_gen a None w
             = Some (VScalar x, w)) ∧
     (∃ x, MPIprod (Some M) false comm_Allreduce npop_gen a None w
             = Some (VScalar x, w))) ∧
  (∀ x w, - 2 ^ 63 ≤ x < 2 ^ 63 →
     MPIsum (Some M) false comm_Allreduce npop_gen [Some [x]] None w
       = Some (VScalar x, w) ∧
     MPImin (Some M) false comm_Allreduce npop_gen [Some [x]] None w
       = Some (VScalar x, w) ∧
     MPImax (Some M) false comm_Allreduce npop_gen [Some [x]] None w
       = Some (VScalar x, w) ∧
     MPIprod (Some M) false comm_Allreduce npop_gen [Some [x]] None w
       = Some (VScalar x, w)).
Proof.
  split; [done |]. split; [done |]. split; [| split; [| split]].
  - intros comm' a name axis w.
    destruct (op_table (Some M) name) as [[mo o] |] eqn:Hop.
    + by rewrite !(MPIop_disabled M _ npop_gen a name axis w mo o Hop).
    + by rewrite !MPIop_unknown.
  - intros a name axis w r w' Hr.
    destruct (op_table (Some M) name) as [[mo o] |] eqn:Hop;
      [| by rewrite MPIop_unknown in Hr].
    rewrite (MPIop_disabled M _ npop_gen a name axis w mo o Hop) in Hr.
    destruct (local_reduce npop_gen o a axis) as [v |] eqn:Hv; [| done].
    simpl in Hr. injection Hr as <- <-. split; [done |].
    unfold local_reduce in Hv. destruct axis as [ax |].
    + destruct (ax =? 0); [by eexists _, _ |].
      destruct (mapM _ a) as [l |] eqn:Hl; [| done].
      injection Hv as <-. exists l. split; [done |].
      apply mapM_Some in Hl. split; [symmetry; by eapply Forall2_length |].
      intros i Hi. destruct (Forall2_lookup_l _ _ _ _ _ Hl Hi) as (y & Hy & Hf).
      simpl in Hf. by injection Hf as <-.
    + destruct (mapM (npop o) (present a)) as [locals |]; [| done].
      simpl in Hv. destruct (npop o locals) as [x |]; [| done].
      injection Hv as <-. by eexists.
  - intros a w. split.
    + exists (wrap64 (np_sum (wrap64 ∘ np_sum <$> present a))).
      unfold MPIsum.
      rewrite (MPIop_disabled M _ npop_gen a "SUM" None w _ _
                 (proj1 (op_table_names M))).
      unfold local_reduce. by rewrite (mapM_npop_total SUM); [| left].
    + exists (wrap64 (np_prod (wrap64 ∘ np_prod <$> present a))).
      unfold MPIprod.
      rewrite (MPIop_disabled M _ npop_gen a "PROD" None w _ _
                 (proj2 (proj2 (proj2 (op_table_names M))))).
      unfold local_reduce. by rewrite (mapM_npop_total PROD); [| right].
  - intros x w Hx. unfold MPIsum, MPImin, MPImax, MPIprod, _MPIop.
    cbn [op_table_names]. simpl.
    rewrite !Z.add_0_r, !Z.mul_1_r, !(wrap64_id x Hx). done.
Qed.

(** An instance of C9: a rank that holds the single number 7. *)
Lemma single_rank_collectives_witness :
  - 2 ^ 63 ≤ 7 < 2 ^ 63 ∧
  MPIsum (World := unit) (Some (mkMPI 0%nat 1%nat 2%nat 3%nat)) false
    (λ _ a w, (a, w)) (λ _ _, None) [Some [7]] None tt
  = Some (VScalar 7, tt).
Proof.
  split; [lia |].
  pose proof (single_rank_collectives (World := unit)
                (mkMPI 0%nat 1%nat 2%nat 3%nat) (λ _ a w, (a, w)) id
                (λ _ _, None)) as (_ & _ & _ & _ & _ & H).
  apply (H 7 tt). lia.
Defined.

(** C9 as stated fails: with one rank, the sum over the local array
    [[1, 2]] is the number 3, not the list that was passed in. *)
Lemma single_rank_reduction_changes_input :
  MPIsum (World := unit) (Some (mkMPI 0%nat 1%nat 2%nat 3%nat)) false
    (λ _ a w, (a, w)) (λ _ _, None) [Some [1; 2]] None tt
  = Some (VScalar 3, tt) ∧
  MPIsum (World := unit) (Some (mkMPI 0%nat 1%nat 2%nat 3%nat)) false
    (λ _ a w, (a, w)) (λ _ _, None) [Some [1; 2]] None tt
  ≠ Some (VArrays [Some [1; 2]], tt).
Proof. split; [reflexivity | discriminate]. Qed.

(** When mpi4py could not be imported, [MPI] is [None] and the dictionary
    literal of [_MPIop] raises before any reduction. *)
Lemma MPIop_without_mpi4py {World : Type}
    (comm_Allreduce : option nat → pyval → World → pyval * World)
    (npop_gen : Op → list (list Z) → option pyval)
    (a : list (option (list Z))) (name : string) (axis : option Z) (w : World) :
  _MPIop None false comm_Allreduce npop_gen a name axis w = None.
Proof. reflexivity. Qed.

(** * Properties of the engine lifecycle *)

Section BaseEngineProofs.

Context {World Err Time Support : Type}.
Context `{Env : !Environment World Time Support}.
Context `{Hooks : !EngineHooks World Err Support}.

Local Abbreviation Engine := (BaseEngine Err Time Support).

(** ** One iteration *)

Lemma iterate_body_bookkeeping (e : Engine) (w : World) :
  bookkeeping_inv e →
  ∃ e' w',
    iterate_body e w = Some (e', w') ∧
    bookkeeping_inv e' ∧
    length (itermeta e') = S (length (itermeta e)) ∧
    length <$> errorlist e' = S <$> (length <$> errorlist e) ∧
    curiter e' = Z.succ <$> curiter e.
Proof.
  intros [Hc He]. unfold iterate_body.
  destruct (errorlist e) as [el |] eqn:Hel; [| done].
  rewrite Hc. simpl. eexists _, _. split; [reflexivity |].
  unfold bookkeeping_inv. simpl. rewrite !length_app. simpl.
  simpl in He. injection He as He.
  repeat split; f_equal; lia.
Qed.

Lemma iterate_body_finished (e e' : Engine) (w w' : World) :
  iterate_body e w = Some (e', w') →
  numiter e' = numiter e ∧
  (finished e' = true ↔ finished e = true ∨ curiter e' = Some (numiter e')).
Proof.
  unfold iterate_body. intros Hb.
  destruct (errorlist e) as [el |]; [| done].
  destruct (curiter e) as [ci |]; [| done]. simpl in Hb.
  injection Hb as <- <-. simpl. split; [done |].
  destruct (Z.eqb_spec (ci + 1) (numiter e)) as [Heq | Hne].
  - split; [intros _; right; by f_equal | done].
  - split; [by left | intros [? | [=]]; [done | lia]].
Qed.

Lemma iterate_body_within_budget (e e' : Engine) (w w' : World) :
  finished e = false → within_budget e →
  iterate_body e w = Some (e', w') → within_budget e'.
Proof.
  intros Hfin (c & Hc & Hb & Hfull) Hbody.
  destruct (iterate_body_finished _ _ _ _ Hbody) as [Hn Hf].
  unfold iterate_body in Hbody. rewrite Hc in Hbody.
  destruct (errorlist e) as [el |]; [| done]. simpl in Hbody.
  injection Hbody as <- <-. simpl in *.
  assert (c ≠ numiter e) as Hne by (intros Heq; apply Hfull in Heq; congruence).
  exists (c + 1). simpl. split; [done |]. split; [lia |].
  intros Heq. apply Z.eqb_eq in Heq. by rewrite Heq.
Qed.

(** ** [iterate] *)

Lemma iterate_loop_bookkeeping (n : nat) (e : Engine) (w : World) :
  bookkeeping_inv e →
  ∃ e' w', iterate_loop n e w = Some (e', w') ∧ bookkeeping_inv e'.
Proof.
  revert e w. induction n as [|n IH]; intros e w Hinv; simpl.
  - by exists e, w.
  - destruct (finished e); [by exists e, w |].
    destruct (iterate_body_bookkeeping e w Hinv) as (e1 & w1 & -> & Hinv1 & _).
    simpl. by apply IH.
Qed.

Lemma iterate_loop_finished (n : nat) (e e' : Engine) (w w' : World) :
  iterate_loop n e w = Some (e', w') →
  numiter e' = numiter e ∧ (finished e = true → finished e' = true).
Proof.
  revert e w. induction n as [|n IH]; intros e w Hloop; simpl in Hloop.
  - by injection Hloop as <- <-.
  - destruct (finished e) eqn:Hfin; [by injection Hloop as <- <- |].
    destruct (iterate_body e w) as [[e1 w1] |] eqn:Hbody; [| done].
    simpl in Hloop. destruct (IH _ _ Hloop) as [Hn _].
    destruct (iterate_body_finished _ _ _ _ Hbody) as [Hn1 _].
    split; [congruence | done].
Qed.

Lemma iterate_loop_within_budget (n : nat) (e e' : Engine) (w w' : World) :
  within_budget e → iterate_loop n e w = Some (e', w') → within_budget e'.
Proof.
  revert e w. induction n as [|n IH]; intros e w Hb Hloop; simpl in Hloop.
  - by injection Hloop as <- <-.
  - destruct (finished e) eqn:Hfin; [by injection Hloop as <- <- |].
    destruct (iterate_body e w) as [[e1 w1] |] eqn:Hbody; [| done].
    simpl in Hloop. eapply IH; [| exact Hloop].
    by eapply iterate_body_within_budget.
Qed.

(** A finished engine ignores [iterate]. *)
Lemma iterate_finished (num : option Z) (e : Engine) (w : World) :
  finished e = true → iterate num e w = Some (e, w).
Proof.
  intros Hfin. unfold iterate.
  destruct (Z.to_nat _); simpl; [done | by rewrite Hfin].
Qed.

(** ** Sequences of operations *)

Lemma apply_op_bookkeeping (o : lifecycle_op) (e : Engine) (w : World) :
  o ≠ OpInitialize → bookkeeping_inv e →
  ∃ e' w', apply_op o e w = Some (e', w') ∧ bookkeeping_inv e'.
Proof.
  intros Ho Hinv. destruct o as [| | num |]; simpl.
  - done.
  - by eexists _, _.
  - by apply iterate_loop_bookkeeping.
  - by eexists _, _.
Qed.

Lemma run_ops_bookkeeping (ops : list lifecycle_op) (e : Engine) (w : World) :
  Forall (λ o, o ≠ OpInitialize) ops → bookkeeping_inv e →
  ∃ e' w', run_ops ops e w = Some (e', w') ∧ bookkeeping_inv e'.
Proof.
  intros Hops. revert e w. induction Hops as [|o ops Ho _ IH]; intros e w Hinv.
  - by exists e, w.
  - simpl. destruct (apply_op_bookkeeping o e w Ho Hinv) as (e1 & w1 & -> & Hinv1).
    simpl. by apply IH.
Qed.

Lemma apply_op_finished (o : lifecycle_op) (e e' : Engine) (w w' : World) :
  (o = OpPrepare → finished e = false) →
  apply_op o e w = Some (e', w') →
  numiter e' = numiter e ∧ (finished e = true → finished e' = true).
Proof.
  intros Hguard Hop. destruct o as [| | num |]; simpl in Hop.
  - by injection Hop as <- <-.
  - injection Hop as <- <-. simpl. split; [done |].
    intros Hfin. rewrite Hguard in Hfin; done.
  - by eapply iterate_loop_finished.
  - by injection Hop as <- <-.
Qed.

Lemma apply_op_within_budget (o : lifecycle_op) (e e' : Engine) (w w' : World) :
  1 ≤ numiter e →
  (o = OpPrepare → finished e = false) →
  within_budget e →
  apply_op o e w = Some (e', w') → within_budget e'.
Proof.
  intros Hnum Hguard (c & Hc & Hb & Hfull) Hop.
  destruct o as [| | num |]; simpl in Hop.
  - injection Hop as <- <-. exists 0. simpl. split; [done |]. split; lia.
  - injection Hop as <- <-. exists c. simpl. split; [done |]. split; [done |].
    intros Heq. apply Hfull in Heq. rewrite Hguard in Heq; done.
  - eapply iterate_loop_within_budget; [| exact Hop]. by exists c.
  - injection Hop as <- <-. by exists c.
Qed.

(** One call [iterate()] with batch size 1 below the budget completes one
    iteration. *)
Lemma iterate_at_iteration (B : Z) (k : nat) (e : Engine) (w : World) :
  at_iteration B k e → Z.of_nat k < B →
  ∃ e' w', iterate None e w = Some (e', w') ∧ at_iteration B (S k) e'.
Proof.
  intros (Hn & Hb & Hc & He & Hm & Hfin) Hk.
  unfold iterate. rewrite Hb. simpl.
  rewrite Hfin. destruct (Z.eqb_spec (Z.of_nat k) B) as [| _]; [lia |].
  unfold iterate_body. rewrite Hc.
  destruct (errorlist e) as [el |]; [| done]. simpl in *.
  eexists _, _. split; [reflexivity |].
  injection He as He.
  assert (Z.of_nat k + 1 = Z.of_nat (S k)) as Hs by lia.
  unfold at_iteration. cbn [numiter p curiter errorlist itermeta finished].
  rewrite Hs, Hn, Hfin. split; [done |]. split; [done |]. split; [done |].
  split; [simpl; rewrite length_app; simpl; f_equal; lia |].
  split; [rewrite length_app; simpl; lia |].
  by destruct (Z.of_nat (S k) =? B).
Qed.

Lemma run_iterate_at_iteration (B : Z) (n k : nat) (e : Engine) (w : World) :
  at_iteration B k e → Z.of_nat (k + n) ≤ B →
  ∃ e' w',
    run_ops (replicate n (OpIterate None)) e w = Some (e', w') ∧
    at_iteration B (k + n) e'.
Proof.
  revert k e w. induction n as [|n IH]; intros k e w Hat Hk; simpl.
  - exists e, w. by rewrite Nat.add_0_r.
  - destruct (iterate_at_iteration B k e w Hat ltac:(lia)) as (e1 & w1 & -> & Hat1).
    simpl. replace (k + S n)%nat with (S k + n)%nat by lia.
    apply IH; [done | lia].
Qed.

(** ** C3: the [finished] flag *)

(** C3 (as the code has it). The flag starts false. An iteration sets it
    exactly when the counter it has just incremented equals [numiter], and
    otherwise leaves it as it was. [prepare] clears it, so that an engine can
    be prepared and run again; no other operation does. With a budget of at
    least 1, in every sequence of lifecycle operations after [initialize] in
    which [prepare] is not applied to a finished engine, a flag that is set
    stays set, the counter never exceeds the budget, and the counter has
    reached the budget only with the flag set. *)
Theorem finished_flag (pars : option (ParamUpdate Support))
    (info : list (nat * Meta Err Time)) (w0 : World) :
  finished (BaseEngine_init pars info) = false ∧
  (∀ e w e' w',
     iterate_body e w = Some (e', w') →
     finished e' = true ↔ finished e = true ∨ curiter e' = Some (numiter e')) ∧
  (∀ e w, finished (prepare e w).1 = false) ∧
  (∀ o e w e' w',
     (o = OpPrepare → finished e = false) →
     apply_op o e w = Some (e', w') →
     finished e = true → finished e' = true) ∧
  (1 ≤ numiter (BaseEngine_init pars info) →
   ∀ e w,
     reached_without_rerun (initialize (BaseEngine_init pars info) w0).1
                           (initialize (BaseEngine_init pars info) w0).2 e w →
     within_budget e).
Proof.
  split; [done |]. split; [| split; [done |]; split].
  - intros e w e' w' Hbody. by destruct (iterate_body_finished _ _ _ _ Hbody).
  - intros o e w e' w' Hguard Hop. by destruct (apply_op_finished _ _ _ _ _ Hguard Hop).
  - intros Hnum e w Hreach.
    assert (numiter e = numiter (BaseEngine_init pars info) ∧ within_budget e)
      as [_ ?]; [| done].
    induction Hreach as [| e w o e' w' _ [Hn IH] Hguard Hop].
    + split; [done |]. exists 0. simpl. split; [done |]. split; [simpl in Hnum; lia |].
      simpl in Hnum. lia.
    + destruct (apply_op_finished _ _ _ _ _ Hguard Hop) as [Hn' _].
      split; [congruence |].
      eapply apply_op_within_budget; [| exact Hguard | exact IH | exact Hop].
      by rewrite Hn.
Qed.

(** ** C4: termination after the budget *)

(** C4. With a budget of 5 iterations and a batch size of 1, starting from
    an engine that was just initialized (and prepared or not), five calls of
    [iterate()] return with the flag set, five error values, five records
    and the counter at 5; a sixth call, with or without an argument, returns
    without changing anything: engine and surroundings are as before. *)
Theorem lifecycle_termination (ps : option (option Support))
    (info : list (nat * Meta Err Time)) (w : World) (with_prepare : bool) :
  let pars := Some {| u_numiter := Some 5; u_numiter_contiguous := Some 1;
                      u_probe_support := ps |} in
  let s0 := initialize (BaseEngine_init pars info) w in
  let s1 := if with_prepare then prepare s0.1 s0.2 else s0 in
  ∃ e5 w5,
    run_ops (replicate 5 (OpIterate None)) s1.1 s1.2 = Some (e5, w5) ∧
    finished e5 = true ∧
    length <$> errorlist e5 = Some 5%nat ∧
    length (itermeta e5) = 5%nat ∧
    curiter e5 = Some 5 ∧
    ∀ num, iterate num e5 w5 = Some (e5, w5).
Proof.
  intros pars s0 s1.
  assert (at_iteration 5 0 s1.1) as H0.
  { unfold s1, s0. by destruct with_prepare. }
  destruct (run_iterate_at_iteration 5 5 0 s1.1 s1.2 H0 ltac:(lia))
    as (e5 & w5 & Hrun & Hat).
  exists e5, w5. split; [done |].
  destruct Hat as (_ & _ & Hc & He & Hm & Hfin). simpl in Hfin.
  repeat split; try done.
  intros num. by apply iterate_finished.
Qed.

(** ** C10: counter and histories agree *)

(** C10 (as the code has it). After [initialize()] on a new engine, the
    counter equals the number of error values and the number of iteration
    records ([initialize] resets the counter and the error values, and only
    [__init__] creates the list of records). An iteration
    appends one error value and one record and adds one to the counter;
    [iterate(n)] returns and keeps the equality for every [n], wherever the
    flag stops the loop; so the equality holds after any sequence of
    [prepare], [iterate] and [finalize]. *)
Theorem bookkeeping_invariant (pars : option (ParamUpdate Support))
    (info : list (nat * Meta Err Time)) (w0 : World) :
  let s0 := initialize (BaseEngine_init pars info) w0 in
  bookkeeping_inv s0.1 ∧
  (∀ e w, bookkeeping_inv e →
     ∃ e' w',
       iterate_body e w = Some (e', w') ∧
       bookkeeping_inv e' ∧
       length (itermeta e') = S (length (itermeta e)) ∧
       length <$> errorlist e' = S <$> (length <$> errorlist e) ∧
       curiter e' = Z.succ <$> curiter e) ∧
  (∀ num e w, bookkeeping_inv e →
     ∃ e' w', iterate num e w = Some (e', w') ∧ bookkeeping_inv e') ∧
  (∀ ops, Forall (λ o, o ≠ OpInitialize) ops →
     ∃ e' w', run_ops ops s0.1 s0.2 = Some (e', w') ∧ bookkeeping_inv e').
Proof.
  intros s0.
  assert (bookkeeping_inv s0.1) as H0 by done.
  split; [done |]. split; [| split].
  - intros e w. apply iterate_body_bookkeeping.
  - intros num e w. apply iterate_loop_bookkeeping.
  - intros ops Hops. by apply run_ops_bookkeeping.
Qed.

End BaseEngineProofs.

(** * Instances *)

Lemma assign_partition_witness :
  ∃ out lm',
    assign 3 {| load := [1; 0; 2]; rank_of := (∅ : gmap nat nat) |}
      (Some [7; 8; 9; 10]%nat) = Some (out, lm') ∧
    length out = 3%nat ∧
    (∀ i, (i < 4)%nat ↔ ∃ r l, out !! r = Some l ∧ i ∈ l) ∧
    NoDup (concat out) ∧
    (∀ i r r' l l', out !! r = Some l → out !! r' = Some l' →
                    i ∈ l → i ∈ l' → r = r').
Proof.
  apply (assign_partition 3 {| load := [1; 0; 2]; rank_of := ∅ |}
           [7; 8; 9; 10]%nat); [reflexivity | lia].
Defined.

Lemma assign_order_preserving_witness :
  ∃ out lm',
    assign 3 {| load := [1; 0; 2]; rank_of := (∅ : gmap nat nat) |}
      (Some [7; 8; 9; 10]%nat) = Some (out, lm') ∧
    concat out = seq 0 4 ∧
    ∀ r l, out !! r = Some l →
           l = seq (length (concat (take r out))) (length l).
Proof.
  apply (assign_order_preserving 3 {| load := [1; 0; 2]; rank_of := ∅ |}
           [7; 8; 9; 10]%nat); [reflexivity | lia].
Defined.


Lemma load_monotone_witness :
  ∃ lm lm',
    run_assigns 3 (LoadManager_init 3) [Some [1; 2]%nat; None] = Some lm ∧
    run_assigns 3 lm [None; Some [3; 4; 5; 6; 7]%nat; None] = Some lm' ∧
    Forall2 Z.le (load lm) (load lm').
Proof.
  apply (load_monotone 3 [Some [1; 2]%nat; None]
           [None; Some [3; 4; 5; 6; 7]%nat; None]). lia.
Defined.

(** C2 as stated fails for a prior load state that no sequence of calls
    produces: with loads 0, 5, 100 the second rank passes the eligibility
    test of the bulk branch but lies above the mean of the eligible ranks,
    and one bulk call with a single item takes its load from 5 down to 3. *)
Lemma unbalanced_load_can_decrease :
  ∃ out lm',
    assign 3 {| load := [0; 5; 100]; rank_of := (∅ : gmap nat nat) |}
      (Some [0%nat]) = Some (out, lm') ∧
    out = [[0%nat]; []; []] ∧
    load lm' = [3; 3; 100] ∧
    ¬ Forall2 Z.le [0; 5; 100] (load lm').
Proof.
  eexists _, _. split; [reflexivity |]. split; [reflexivity |].
  match goal with
  | |- ?l = _ ∧ _ => assert (l = [3; 3; 100]) as Hl by reflexivity
  end.
  split; [exact Hl |]. rewrite Hl.
  intros Hle. apply Forall2_cons_1 in Hle as [_ Hle].
  apply Forall2_cons_1 in Hle as [Hle _]. lia.
Qed.

(** C3 as stated fails: with a budget of 1, one iteration sets the flag;
    [prepare] then clears it, and the next iteration takes the counter to 2,
    past the budget, with the flag still clear. *)
Lemma prepare_resets_finished :
  ∃ e1 w1 e2 w2 e3 w3,
    run_ops (Env := demo_env) (Hooks := demo_hooks)
      [OpInitialize; OpPrepare; OpIterate None] (demo_engine 1) 0
      = Some (e1, w1) ∧
    finished e1 = true ∧ curiter e1 = Some 1 ∧
    apply_op (Env := demo_env) (Hooks := demo_hooks) OpPrepare e1 w1
      = Some (e2, w2) ∧
    finished e2 = false ∧
    apply_op (Env := demo_env) (Hooks := demo_hooks) (OpIterate None) e2 w2
      = Some (e3, w3) ∧
    curiter e3 = Some 2 ∧ numiter e3 = 1 ∧ finished e3 = false.
Proof.
  eexists _, _, _, _, _, _.
  split; [reflexivity |]. split; [reflexivity |]. split; [reflexivity |].
  split; [reflexivity |]. split; [reflexivity |]. split; [reflexivity |].
  split; [reflexivity |]. split; reflexivity.
Qed.

(** C10 as stated fails: [initialize()] sets the counter to 0 and empties
    the error history but leaves [itermeta], which only [__init__] creates;
    initialized again after one iteration, the engine has counter 0, no
    error value and one iteration record. *)
Lemma reinitialize_keeps_itermeta :
  ∃ e w,
    run_ops (Env := demo_env) (Hooks := demo_hooks)
      [OpInitialize; OpIterate None; OpInitialize] (demo_engine 3) 0
      = Some (e, w) ∧
    curiter e = Some 0 ∧ errorlist e = Some [] ∧
    length (itermeta e) = 1%nat ∧
    ¬ bookkeeping_inv e.
Proof.
  eexists _, _. split; [reflexivity |]. split; [reflexivity |].
  split; [reflexivity |]. split; [reflexivity |].
  intros [Hc _]. discriminate Hc.
Qed.

Lemma finished_flag_witness :
  ∃ e w,
    run_ops (Env := demo_env) (Hooks := demo_hooks)
      [OpInitialize; OpPrepare; OpIterate (Some 7)] (demo_engine 2) 0
      = Some (e, w) ∧
    within_budget e.
Proof.
  eexists _, _. split; [reflexivity |].
  eapply (proj2 (proj2 (proj2 (proj2
            (finished_flag (Env := demo_env) (Hooks := demo_hooks)
               (Some {| u_numiter := Some 2; u_numiter_contiguous := None;
                        u_probe_support := None |}) [] 0)))));
    [simpl; lia |].
  eapply reached_step with (o := OpIterate (Some 7));
    [eapply reached_step with (o := OpPrepare);
       [apply reached_start | done | reflexivity]
    | discriminate | reflexivity].
Defined.

Lemma bookkeeping_invariant_witness :
  ∃ e' w',
    run_ops (Env := demo_env) (Hooks := demo_hooks)
      [OpPrepare; OpIterate (Some 3); OpFinalize; OpIterate None]
      (initialize (Env := demo_env) (Hooks := demo_hooks) (demo_engine 4) 0).1
      (initialize (Env := demo_env) (Hooks := demo_hooks) (demo_engine 4) 0).2
      = Some (e', w') ∧
    bookkeeping_inv e'.
Proof.
  apply (proj2 (proj2 (proj2
           (bookkeeping_invariant (Env := demo_env) (Hooks := demo_hooks)
              (Some {| u_numiter := Some 4; u_numiter_contiguous := None;
                       u_probe_support := None |}) [] 0)))).
  repeat constructor; discriminate.
Defined.

(** * Further properties of [LoadManager] *)



Lemma nonneg_sum_zero (a : list Z) :
  Forall (λ x, 0 ≤ x) a → np_sum a = 0 → Forall (λ x, x = 0) a.
Proof.
  induction 1 as [|x a Hx Ha IH]; intros Hsum; [constructor |]. simpl in Hsum.
  pose proof (np_sum_nonneg a Ha). constructor; [lia |]. apply IH. lia.
Qed.

Section LoadManagerExtras.

Context {K : Type} `{Countable K}.
Variable size : nat.

(** ** The total load grows by the number of items *)


(** ** Loads stay balanced and count the indices handed out *)

(** One call on a balanced manager adds to each load the length of the
    list returned for that rank. *)
Lemma assign_load_counts (lm : LoadManager K) (c : option (list K)) :
  length (load lm) = size → (0 < size)%nat → balanced (load lm) →
  ∃ out lm',
    assign size lm c = Some (out, lm') ∧
    length out = size ∧
    length (load lm') = size ∧
    balanced (load lm') ∧
    load lm' = zip_with (λ x l, x + Z.of_nat (length l)) (load lm) out.
Proof.
  intros Hlen Hsize Hbal.
  destruct (assign_step_balanced size lm c Hlen Hsize Hbal)
    as (out & lm' & Ha & Hlen' & Hbal' & _).
  exists out, lm'. split; [done |].
  destruct c as [ids |].
  - destruct (part_balanced size (load lm) (Z.of_nat (length ids)) Hlen
                ltac:(lia) Hbal) as [Hpos _].
    destruct (assign_bulk_counts size lm ids Hlen Hsize Hpos)
      as (out1 & lm1 & Ha1 & Hlo & _ & Hcnt).
    destruct (assign_bulk_concat size lm ids Hlen Hsize)
      as (out2 & lm2 & Ha2 & _ & _ & Hld & _).
    assert (out1 = out ∧ lm1 = lm') as [-> ->] by (split; congruence).
    assert (lm2 = lm') as -> by congruence.
    split; [done |]. split; [done |]. split; [done |].
    rewrite Hld.
    assert (part size (load lm) (Z.of_nat (length ids))
            = (λ l, Z.of_nat (length l)) <$> out) as ->.
    { apply list_eq. intros i. rewrite list_lookup_fmap.
      destruct (out !! i) as [l |] eqn:Hl; simpl.
      - destruct (Forall2_lookup_l _ _ _ _ _ Hcnt Hl) as (p & -> & <-). done.
      - apply lookup_ge_None. apply lookup_ge_None in Hl.
        rewrite <- (Forall2_length _ _ _ Hcnt). done. }
    by rewrite zip_with_fmap_r.
  - destruct (assign_anonymous_spec size lm Hlen Hsize)
      as (r & m & out1 & Hr & Hm & _ & _ & Ha1 & Hlo & Hout).
    assert (out1 = out) as -> by congruence.
    assert (lm' = {| load := <[r := m + 1]> (load lm); rank_of := rank_of lm |})
      as -> by congruence.
    split; [done |]. split; [done |]. split; [done |]. simpl.
    apply list_eq. intros i. rewrite lookup_zip_with.
    destruct (decide (i < size)%nat) as [Hi | Hi].
    + rewrite (Hout i Hi). destruct (load lm !! i) as [x |] eqn:Hx.
      * simpl. destruct (decide (i = r)) as [-> | Hne].
        -- rewrite list_lookup_insert_eq by lia. simpl.
           assert (x = m) as -> by congruence. f_equal; lia.
        -- rewrite list_lookup_insert_ne by done. rewrite Hx. simpl. f_equal; lia.
      * apply lookup_ge_None in Hx. lia.
    + rewrite (proj2 (lookup_ge_None (load lm) i)) by lia. simpl.
      apply lookup_ge_None. rewrite length_insert. lia.
Qed.

Lemma run_assigns_outs_counts (lm : LoadManager K)
    (calls : list (option (list K))) :
  length (load lm) = size → (0 < size)%nat → balanced (load lm) →
  ∃ outs lm',
    run_assigns_outs size lm calls = Some (outs, lm') ∧
    run_assigns size lm calls = Some lm' ∧
    length outs = length calls ∧
    length (load lm') = size ∧
    balanced (load lm') ∧
    ∀ r x, load lm !! r = Some x →
           load lm' !! r = Some (x + share_total outs r).
Proof.
  revert lm. induction calls as [|c calls IH]; intros lm Hlen Hsize Hbal; simpl.
  - exists [], lm. repeat split; try done.
    intros r x Hx. simpl. rewrite Hx. f_equal; lia.
  - destruct (assign_load_counts lm c Hlen Hsize Hbal)
      as (out & lm1 & -> & Hlo & Hlen1 & Hbal1 & Hld).
    destruct (IH lm1 Hlen1 Hsize Hbal1)
      as (outs & lm2 & -> & -> & Hlos & Hlen2 & Hbal2 & Hcnt).
    exists (out :: outs), lm2. repeat split; try done; [simpl; lia |].
    intros r x Hx.
    assert (r < size)%nat as Hr by (apply lookup_lt_Some in Hx; lia).
    destruct (lookup_lt_is_Some_2 out r ltac:(lia)) as [l Hl].
    rewrite (Hcnt r (x + Z.of_nat (length l))).
    + f_equal. simpl. rewrite Hl. simpl. lia.
    + rewrite Hld, lookup_zip_with, Hx, Hl. done.
Qed.

(** After any sequence of calls on a new manager, every call has returned,
    the loads of any two ranks differ by at most one, and the load of a rank
    is the number of indices the calls have handed to it. *)
Theorem loads_balanced_and_counted (history : list (option (list K))) :
  (0 < size)%nat →
  ∃ outs lm,
    run_assigns_outs size (LoadManager_init size) history = Some (outs, lm) ∧
    run_assigns size (LoadManager_init size) history = Some lm ∧
    length (load lm) = size ∧
    (∀ r r' x y, load lm !! r = Some x → load lm !! r' = Some y →
                 Z.abs (x - y) ≤ 1) ∧
    (∀ r, (r < size)%nat → load lm !! r = Some (share_total outs r)).
Proof.
  intros Hsize.
  destruct (run_assigns_outs_counts (LoadManager_init size) history)
    as (outs & lm & Hrun & Hrun' & _ & Hlen & [m Hbal] & Hcnt).
  { apply length_replicate. }
  { done. }
  { exists 0. simpl. apply Forall_forall. intros x Hx.
    apply elem_of_replicate in Hx as [-> _]. lia. }
  exists outs, lm. split; [done |]. split; [done |]. split; [done |]. split.
  - intros r r' x y Hx Hy.
    pose proof (proj1 (Forall_lookup _ _) Hbal r x Hx) as Hxb.
    pose proof (proj1 (Forall_lookup _ _) Hbal r' y Hy) as Hyb.
    simpl in *. lia.
  - intros r Hr. rewrite (Hcnt r 0); [f_equal; lia |].
    simpl. by apply lookup_replicate_2.
Qed.

End LoadManagerExtras.

Lemma zip_add_zero (a b : list Z) :
  length b = length a → Forall (λ x, x = 0) b → zip_with Z.add a b = a.
Proof.
  revert b. induction a as [|x a IH]; intros [|y b] Hlen Hz; simpl in *; try done.
  apply Forall_cons in Hz as [-> Hz]. rewrite IH by (lia || done). f_equal. lia.
Qed.

Section LoadManagerKeys.

Context {K : Type} `{Countable K}.
Variable size : nat.

(** ** The dictionary [rank_of] *)

(** The loop records, for every key, the rank looked up for the last index
    at which the key occurs, and leaves the other keys alone. *)
Lemma assign_loop_rank_of (cumpart : list Z) (ids : list K) (s : nat)
    (out out' : list (list nat)) (ro ro' : gmap K nat) :
  assign_loop size cumpart (enumerate_from s ids) out ro = Some (out', ro') →
  (∀ k, k ∉ ids → ro' !! k = ro !! k) ∧
  (∀ j k, ids !! j = Some k → (∀ j', (j < j')%nat → ids !! j' ≠ Some k) →
          ro' !! k = first_rank_above size cumpart (s + j)).
Proof.
  revert s out ro. induction ids as [|k0 ids IH]; intros s out ro Hloop; simpl in *.
  - injection Hloop as <- <-. split; [done |]. intros j k Hj. done.
  - destruct (first_rank_above size cumpart s) as [r0 |] eqn:Hr0; [| done].
    destruct (IH _ _ _ Hloop) as [IHa IHb]. split.
    + intros k Hk. apply not_elem_of_cons in Hk as [Hne Hk].
      rewrite (IHa k Hk). by rewrite lookup_insert_ne.
    + intros j k Hj Hlast. destruct j as [|j]; simpl in Hj.
      * injection Hj as ->. rewrite Nat.add_0_r, Hr0.
        rewrite IHa; [by rewrite lookup_insert_eq |].
        intros Hin. apply list_elem_of_lookup_1 in Hin as [j' Hj'].
        by apply (Hlast (S j')); [lia |].
      * rewrite (IHb j k Hj).
        -- f_equal. lia.
        -- intros j' Hlt. apply (Hlast (S j')). lia.
Qed.

(** After a bulk call, every key of the list is mapped to the rank that
    owns its index, the last index winning when a key is repeated; the ranks
    recorded are below [size]; keys that are not in the list keep what they
    had. *)
Theorem assign_rank_of (lm : LoadManager K) (ids : list K) :
  length (load lm) = size → (0 < size)%nat →
  ∃ out lm',
    assign size lm (Some ids) = Some (out, lm') ∧
    (∀ k, k ∉ ids → rank_of lm' !! k = rank_of lm !! k) ∧
    (∀ j k, ids !! j = Some k → (∀ j', (j < j')%nat → ids !! j' ≠ Some k) →
            ∃ r, rank_of lm' !! k = Some r ∧ (r < size)%nat ∧ owns out r j).
Proof.
  intros Hlen Hsize.
  destruct (assign_bulk_concat size lm ids Hlen Hsize)
    as (out & lm' & Ha & _ & _ & _ & Hloop).
  exists out, lm'. split; [done |]. unfold enumerate in Hloop.
  destruct (assign_loop_rank_of _ _ _ _ _ _ _ Hloop) as [Hother Hkey].
  split; [done |]. intros j k Hj Hlast.
  rewrite (Hkey j k Hj Hlast). simpl.
  assert (j < length ids)%nat as Hjl by (by apply lookup_lt_Some in Hj).
  destruct (ids) as [|k0 ids0] eqn:Hids; [simpl in Hjl; lia |]. rewrite <- Hids in *.
  destruct (first_rank_above_total size (load lm) (Z.of_nat (length ids)) j)
    as [r Hr]; [done | | lia |].
  { apply nsize_pos; [done | done |]. rewrite Hids. simpl. lia. }
  exists r. split; [done |]. split.
  - by apply first_rank_above_Some in Hr as (? & _).
  - apply (assign_loop_owns size _ _ _ _ _ _ _ r j (length_replicate _ _) Hloop).
    right. split; [lia | done].
Qed.

(** ** Edge cases of the bulk branch *)

(** An empty list on a balanced manager changes nothing and returns empty
    lists. *)
Theorem assign_empty_noop (lm : LoadManager K) :
  length (load lm) = size → (0 < size)%nat → balanced (load lm) →
  assign size lm (Some []) = Some (replicate size [], lm).
Proof.
  intros Hlen Hsize Hbal. unfold assign. simpl.
  destruct (part_balanced size (load lm) 0 Hlen ltac:(lia) Hbal) as [Hpos _].
  pose proof (part_sum size (load lm) 0 Hlen Hsize ltac:(lia)) as Hsum.
  rewrite zip_add_zero.
  - by destruct lm.
  - apply part_length.
  - by apply nonneg_sum_zero.
Qed.


End LoadManagerKeys.

Lemma mask_select_app (f : Z → bool) (a b : list Z) :
  mask_select (map f (a ++ b)) (a ++ b)
  = mask_select (map f a) a ++ mask_select (map f b) b.
Proof.
  induction a as [|x a IH]; [done |]. simpl. destruct (f x); simpl; by rewrite IH.
Qed.

(** How many selected entries come before position [r]. *)
Lemma mask_select_take_length (f : Z → bool) (a : list Z) (r r' : nat) :
  (r ≤ r')%nat →
  (length (mask_select (map f (take r a)) (take r a))
   ≤ length (mask_select (map f (take r' a)) (take r' a)))%nat.
Proof.
  intros Hr. replace r' with (r + (r' - r))%nat by lia.
  rewrite <- take_take_drop, mask_select_app, length_app. lia.
Qed.

(** The entry written at a selected position is the one for the number of
    selected positions before it. *)
Lemma mask_assign_imap_lookup (f : Z → bool) (g : nat → Z → Z) (a : list Z)
    (r : nat) (l : Z) :
  a !! r = Some l → f l = true →
  mask_assign (map f a) (map (λ _, 0) a) (imap g (mask_select (map f a) a)) !! r
  = Some (g (length (mask_select (map f (take r a)) (take r a))) l).
Proof.
  revert g r. induction a as [|x a IH]; intros g r Hr Hf; [done |].
  destruct r as [|r]; simpl in Hr.
  - injection Hr as ->. simpl. by rewrite Hf.
  - simpl. destruct (f x) eqn:Hfx; simpl.
    + by rewrite (IH (g ∘ S) r Hr Hf).
    + by rewrite (IH g r Hr Hf).
Qed.

Lemma nonneg_sum_one (a : list Z) :
  Forall (λ x, 0 ≤ x) a → np_sum a = 1 →
  ∃ r, a !! r = Some 1 ∧ ∀ r' x, r' ≠ r → a !! r' = Some x → x = 0.
Proof.
  induction 1 as [|x a Hx Ha IH]; intros Hsum; [done |]. simpl in Hsum.
  pose proof (np_sum_nonneg a Ha) as Hnn.
  destruct (decide (x = 1)) as [-> | Hne].
  - exists 0%nat. split; [done |]. intros [|r'] y Hr' Hy; [done |]. simpl in Hy.
    pose proof (nonneg_sum_zero a Ha ltac:(lia)) as Hz.
    by apply (proj1 (Forall_lookup _ _) Hz r' y).
  - destruct IH as (r & Hr & Hother); [lia |].
    exists (S r). split; [done |]. intros [|r'] y Hr' Hy; simpl in Hy.
    + injection Hy as <-. lia.
    + apply (Hother r'); [lia | done].
Qed.

Lemma np_sum_upper_with (a : list Z) (hi x : Z) (r : nat) :
  Forall (λ y, y ≤ hi) a → a !! r = Some x →
  np_sum a ≤ hi * Z.of_nat (length a) - (hi - x).
Proof.
  intros Ha. revert r. induction Ha as [|y a Hy Ha IH]; intros r Hr; [done |].
  change (np_sum (y :: a)) with (y + np_sum a).
  change (length (y :: a)) with (S (length a)).
  destruct r as [|r]; simpl in Hr.
  - injection Hr as ->.
    assert (np_sum a ≤ hi * Z.of_nat (length a)); [| lia].
    clear IH. induction Ha as [|z a Hz _ IH]; [simpl; lia |].
    change (np_sum (z :: a)) with (z + np_sum a).
    change (length (z :: a)) with (S (length a)). lia.
  - specialize (IH r Hr). lia.
Qed.

Section SingleItem.

Context {K : Type} `{Countable K}.
Variable size : nat.

(** Among eligible ranks with the same load, a higher rank is never given
    less: the remainder is spread from the last eligible rank backwards. *)
Lemma part_mono_equal_load (ld : list Z) (Nid l p1 p2 : Z) (r1 r2 : nat) :
  (r1 ≤ r2)%nat → ld !! r1 = Some l → ld !! r2 = Some l →
  (total_load0 ld Nid >? l * Z.of_nat size) = true →
  part size ld Nid !! r1 = Some p1 → part size ld Nid !! r2 = Some p2 →
  p1 ≤ p2.
Proof.
  intros Hr Hl1 Hl2 Hf. unfold part, ipart, incr_rev_slice, partition.
  rewrite length_map, length_map, <- list_fmap_compose, imap_fmap.
  unfold li.
  set (f := λ l, total_load0 ld Nid >? l * Z.of_nat size) in *.
  rewrite (mask_assign_imap_lookup f _ ld r1 l Hl1 Hf).
  rewrite (mask_assign_imap_lookup f _ ld r2 l Hl2 Hf).
  intros [= <-] [= <-]. simpl.
  pose proof (mask_select_take_length f ld r1 r2 Hr) as Hj.
  set (t := rev_slice_stop _ _).
  destruct (Z.ltb_spec t (Z.of_nat (length (mask_select (map f (take r1 ld))
                                              (take r1 ld)))));
    destruct (Z.ltb_spec t (Z.of_nat (length (mask_select (map f (take r2 ld))
                                                (take r2 ld))))); lia.
Qed.

(** On a balanced manager a list with one item is treated as the anonymous
    request is: the same rank is chosen, the same lists are returned and the
    loads become the same; the bulk call also records the key. *)
Theorem assign_single_item_as_anonymous (lm : LoadManager K) (k : K) :
  length (load lm) = size → (0 < size)%nat → balanced (load lm) →
  ∃ out lm_a lm_b r,
    assign size lm None = Some (out, lm_a) ∧
    assign size lm (Some [k]) = Some (out, lm_b) ∧
    load lm_a = load lm_b ∧
    out !! r = Some [0%nat] ∧
    rank_of lm_a = rank_of lm ∧
    rank_of lm_b = <[k := r]> (rank_of lm).
Proof.
  intros Hlen Hsize Hbal.
  destruct (assign_anonymous_spec size lm Hlen Hsize)
    as (r & m & out & Hr & Hm & Hmin & Hlast & Ha & Hlo & Hout).
  destruct (part_balanced size (load lm) 1 Hlen ltac:(lia) Hbal) as [Hpos _].
  pose proof (part_sum size (load lm) 1 Hlen Hsize ltac:(lia)) as Hsum.
  pose proof (part_length size (load lm) 1) as Hpl.
  destruct (nonneg_sum_one _ Hpos Hsum) as (rs & Hrs & Hzero).
  assert (rs < size)%nat as Hrss by (apply lookup_lt_Some in Hrs; lia).
  destruct (lookup_lt_is_Some_2 (load lm) rs ltac:(lia)) as [ls Hls].
  pose proof (Forall2_lookup_lr _ _ _ _ _ _ (part_spec size (load lm) 1) Hls Hrs)
    as Hspec. simpl in Hspec.
  destruct (total_load0 (load lm) 1 >? ls * Z.of_nat size) eqn:Hel; [| done].
  (* the rank that receives the item is at the lowest level *)
  assert (ls = m) as ->.
  { pose proof (Hmin rs ls Hls) as Hge. destruct Hbal as [m0 Hbal].
    pose proof (proj1 (Forall_lookup _ _) Hbal rs ls Hls) as Hb1.
    pose proof (proj1 (Forall_lookup _ _) Hbal r m Hm) as Hb2. simpl in *.
    destruct (decide (ls = m)) as [| Hne]; [done |]. exfalso.
    assert (Forall (λ y, y ≤ m + 1) (load lm)) as Hub.
    { eapply Forall_impl; [exact Hbal |]. intros y Hy. simpl in Hy. lia. }
    pose proof (np_sum_upper_with _ _ _ _ Hub Hm) as Hs. rewrite Hlen in Hs.
    apply Z.gtb_gt in Hel. unfold total_load0 in Hel. nia. }
  (* and it is the last one at that level *)
  assert (rs = r) as ->.
  { destruct (lt_eq_lt_dec rs r) as [[Hlt | Heq] | Hgt]; [| done |].
    - exfalso. destruct (lookup_lt_is_Some_2 (part size (load lm) 1) r
                           ltac:(lia)) as [pr Hpr].
      pose proof (part_mono_equal_load (load lm) 1 m 1 pr rs r ltac:(lia)
                    Hls Hm Hel Hrs Hpr).
      pose proof (Hzero r pr ltac:(lia) Hpr). lia.
    - exfalso. pose proof (Hlast rs m Hgt Hls). lia. }
  assert (part size (load lm) 1 = <[r := 1]> (replicate size 0)) as Hpart.
  { apply list_eq. intros i. destruct (decide (i = r)) as [-> | Hne].
    - rewrite list_lookup_insert_eq by (rewrite length_replicate; lia). done.
    - rewrite list_lookup_insert_ne by done.
      destruct (part size (load lm) 1 !! i) as [x |] eqn:Hx.
      + rewrite (Hzero i x Hne Hx). symmetry. apply lookup_replicate_2.
        apply lookup_lt_Some in Hx. lia.
      + symmetry. apply lookup_ge_None. apply lookup_ge_None in Hx.
        rewrite length_replicate. lia. }
  assert (first_rank_above size (np_cumsum (part size (load lm) 1)) 0 = Some r)
    as Hfirst.
  { apply (first_rank_above_block size _ r 0 1); [lia | done | done |].
    pose proof (np_sum_take_mono (part size (load lm) 1) 0 r Hpos ltac:(lia)) as Hlo0.
    assert (np_sum (take r (part size (load lm) 1)) + 1 ≤ 1); [| simpl in *; lia].
    rewrite <- (np_sum_take_S _ _ _ Hrs). rewrite <- Hsum at 2.
    rewrite <- (firstn_all (part size (load lm) 1)) at 2.
    apply np_sum_take_mono; [done | lia]. }
  eexists out, _, _, r. split; [exact Ha |]. split; [| split; [| split]].
  - unfold assign, enumerate. cbv zeta. cbn [length enumerate_from assign_loop].
    change (Z.of_nat 1) with 1. rewrite Hfirst. cbn [mbind option_bind].
    do 2 f_equal.
    apply list_eq. intros i. destruct (decide (i < size)%nat) as [Hi | Hi].
    + rewrite (Hout i Hi). destruct (decide (i = r)) as [-> | Hne].
      * rewrite list_lookup_alter_eq, lookup_replicate_2 by done. done.
      * rewrite list_lookup_alter_ne, lookup_replicate_2 by done. done.
    + rewrite (proj2 (lookup_ge_None out i)) by lia.
      apply lookup_ge_None. rewrite length_alter, length_replicate. lia.
  - simpl. rewrite Hpart. apply list_eq. intros i. rewrite lookup_zip_with.
    destruct (decide (i = r)) as [-> | Hne].
    + rewrite !list_lookup_insert_eq, Hm by (rewrite ?length_replicate; lia). done.
    + rewrite !list_lookup_insert_ne by done.
      destruct (load lm !! i) as [x |] eqn:Hx; [| done]. simpl.
      rewrite lookup_replicate_2 by (apply lookup_lt_Some in Hx; lia).
      simpl. f_equal; lia.
  - rewrite (Hout r Hr). by destruct (decide (r = r)).
  - done.
Qed.

End SingleItem.

(** * Further properties of the engine lifecycle *)

Section BaseEngineExtras.

Context {World Err Time Support : Type}.
Context `{Env : !Environment World Time Support}.
Context `{Hooks : !EngineHooks World Err Support}.

Local Abbreviation Engine := (BaseEngine Err Time Support).

(** One pass of the loop body, field by field. *)
Lemma iterate_body_fields (e : Engine) (w : World) (c : Z) (el : list Err) :
  curiter e = Some c → errorlist e = Some el →
  ∃ e',
    iterate_body e w = Some (e', iteration_effect w) ∧
    p e' = p e ∧ numiter e' = numiter e ∧
    curiter e' = Some (c + 1) ∧
    errorlist e' = Some (el ++ [error (iteration_record c w)]) ∧
    itermeta e' = itermeta e ++ [iteration_record c w] ∧
    meta e' = Some (iteration_record c w) ∧
    iter_info e' = iter_info e ++ [(length (iter_info e), iteration_record c w)] ∧
    finished e' = (if c + 1 =? numiter e then true else finished e).
Proof.
  intros Hc He. unfold iterate_body. rewrite Hc, He. simpl.
  eexists. split; [reflexivity |]. repeat split.
Qed.

(** ** How many iterations [iterate] runs *)

Lemma iterate_loop_to_budget (n : nat) (e : Engine) (w : World) (c : Z) :
  finished e = false → curiter e = Some c → is_Some (errorlist e) →
  c < numiter e →
  let k := Z.to_nat (Z.min (Z.of_nat n) (numiter e - c)) in
  ∃ e',
    iterate_loop n e w = Some (e', Nat.iter k iteration_effect w) ∧
    numiter e' = numiter e ∧
    curiter e' = Some (c + Z.of_nat k) ∧
    is_Some (errorlist e') ∧
    finished e' = bool_decide (c + Z.of_nat k = numiter e) ∧
    length (itermeta e') = (length (itermeta e) + k)%nat.
Proof.
  revert e w c. induction n as [|n IH]; intros e w c Hfin Hc [el He] Hlt k.
  - assert (k = 0%nat) as Hk by (unfold k; lia). clearbody k. subst k.
    exists e. simpl. rewrite Z.add_0_r, Nat.add_0_r.
    split; [done |]. split; [done |]. split; [done |].
    split; [by eexists |]. split; [| done].
    rewrite Hfin. symmetry. apply bool_decide_eq_false. lia.
  - simpl. rewrite Hfin.
    destruct (iterate_body_fields e w c el Hc He)
      as (e1 & -> & Hp & Hn & Hc1 & He1 & Hm1 & _ & _ & Hf1).
    simpl. destruct (Z.eqb_spec (c + 1) (numiter e)) as [Heq | Hne].
    + (* the budget is reached: the loop breaks at the next test *)
      assert (k = 1%nat) as Hk by (unfold k; lia). clearbody k. subst k.
      assert (iterate_loop n e1 (iteration_effect w)
              = Some (e1, iteration_effect w)) as ->
        by (destruct n; simpl; [done | by rewrite Hf1]).
      exists e1. simpl.
      split; [done |]. split; [done |]. split; [done |].
      split; [by eexists |]. split.
      * rewrite Hf1. symmetry. apply bool_decide_eq_true. lia.
      * rewrite Hm1, length_app. simpl. lia.
    + destruct (IH e1 (iteration_effect w) (c + 1)) as (e' & Hloop & Hn' & Hc' & He' & Hf' & Hm');
        [congruence | done | by eexists | lia |].
      rewrite Hn in *.
      assert (k = S (Z.to_nat (Z.min (Z.of_nat n) (numiter e - (c + 1))))) as Hk
        by (unfold k; lia).
      clearbody k. exists e'. rewrite Hk, Nat.iter_succ_r. split; [done |].
      split; [done |]. split; [rewrite Hc'; f_equal; lia |]. split; [done |].
      split.
      * rewrite Hf'. apply bool_decide_ext. lia.
      * rewrite Hm', Hm1, length_app. simpl. lia.
Qed.

(** On an initialized engine whose counter is below the budget,
    [iterate(num)] runs no iteration when the flag [finished] is set, and
    otherwise the number of iterations asked for or, if that is fewer, the
    number the budget leaves: the counter advances by that number, the
    surroundings see that many passes of clock, hook, clock and barrier, one
    record is appended per iteration, and afterwards the flag is set
    exactly if it was set before or the budget is reached. *)
Theorem iterate_runs_to_budget (num : option Z) (e : Engine) (w : World) (c : Z) :
  curiter e = Some c → is_Some (errorlist e) →
  c < numiter e →
  let n := match num with Some n => n | None => p_numiter_contiguous (p e) end in
  let k := if finished e then 0%nat
           else Z.to_nat (Z.min n (numiter e - c)) in
  ∃ e',
    iterate num e w = Some (e', Nat.iter k iteration_effect w) ∧
    curiter e' = Some (c + Z.of_nat k) ∧
    finished e' = finished e || bool_decide (c + Z.of_nat k = numiter e) ∧
    length (itermeta e') = (length (itermeta e) + k)%nat.
Proof.
  intros Hc He Hlt. destruct (finished e) eqn:Hfin; intros n k.
  - exists e. rewrite (iterate_finished num e w Hfin). subst k.
    cbn [Nat.iter nat_rect orb]. rewrite Z.add_0_r, Nat.add_0_r. done.
  - unfold iterate. fold n.
    destruct (iterate_loop_to_budget (Z.to_nat n) e w c Hfin Hc He Hlt)
      as (e' & Hloop & _ & Hc' & _ & Hf' & Hm').
    assert (Z.to_nat (Z.min (Z.of_nat (Z.to_nat n)) (numiter e - c)) = k) as Hk
      by (unfold k; lia).
    rewrite Hk in *. by exists e'.
Qed.

(** Once the counter is at or past the budget with the flag clear, as after
    [prepare] on a finished engine, the flag is never set again: [iterate(n)]
    runs all [n] iterations. *)
Theorem iterate_past_budget (num : option Z) (e : Engine) (w : World) (c : Z) :
  finished e = false → curiter e = Some c → is_Some (errorlist e) →
  numiter e ≤ c →
  let n := match num with Some n => n | None => p_numiter_contiguous (p e) end in
  ∃ e',
    iterate num e w = Some (e', Nat.iter (Z.to_nat n) iteration_effect w) ∧
    curiter e' = Some (c + Z.of_nat (Z.to_nat n)) ∧
    finished e' = false.
Proof.
  intros Hfin Hc He Hge n. unfold iterate. fold n.
  generalize (Z.to_nat n). clear n. intros n.
  revert e w c Hfin Hc He Hge. induction n as [|n IH]; intros e w c Hfin Hc [el He] Hge.
  - exists e. simpl. rewrite Z.add_0_r. done.
  - cbn [iterate_loop]. rewrite Hfin.
    destruct (iterate_body_fields e w c el Hc He)
      as (e1 & -> & _ & Hn & Hc1 & He1 & _ & _ & _ & Hf1).
    cbn [fst snd]. destruct (Z.eqb_spec (c + 1) (numiter e)) as [| _]; [lia |].
    destruct (IH e1 (iteration_effect w) (c + 1)) as (e' & Hloop & Hc' & Hf');
      [congruence | done | by eexists | lia |].
    exists e'. rewrite Nat.iter_succ_r. split; [done |].
    split; [rewrite Hc'; f_equal; lia | done].
Qed.

(** ** Edge cases of [iterate] *)

(** [iterate(num)] with [num < 1] runs no iteration at all. *)
Theorem iterate_nonpositive (num : Z) (e : Engine) (w : World) :
  num < 1 → iterate (Some num) e w = Some (e, w).
Proof.
  intros Hnum. unfold iterate.
  replace (Z.to_nat num) with 0%nat by lia. done.
Qed.

(** On a new engine, before [initialize], a call of [iterate] that has an
    iteration to run fails: [errorlist] and [curiter] do not exist yet. *)
Theorem iterate_before_initialize (pars : option (ParamUpdate Support))
    (info : list (nat * Meta Err Time)) (w : World) (num : option Z) :
  let e := BaseEngine_init pars info in
  1 ≤ match num with Some n => n | None => p_numiter_contiguous (p e) end →
  iterate num e w = None.
Proof.
  intros e Hn. unfold iterate.
  destruct (Z.to_nat _) as [|n] eqn:Hk; [lia |]. done.
Qed.

(** [initialize] does not clear the flag: a finished engine that is
    initialized again has its counter and error history reset and still
    ignores [iterate]. *)
Theorem initialize_keeps_finished (num : option Z) (e : Engine) (w : World) :
  finished e = true →
  curiter (initialize e w).1 = Some 0 ∧
  errorlist (initialize e w).1 = Some [] ∧
  itermeta (initialize e w).1 = itermeta e ∧
  iterate num (initialize e w).1 (initialize e w).2 = Some (initialize e w).
Proof.
  intros Hfin. repeat split. by apply iterate_finished.
Qed.

End BaseEngineExtras.

Section BaseEngineRecords.

Context {World Err Time Support : Type}.
Context `{Env : !Environment World Time Support}.
Context `{Hooks : !EngineHooks World Err Support}.

Local Abbreviation Engine := (BaseEngine Err Time Support).

(** ** The iteration records *)

Lemma iterate_body_records (e : Engine) (w : World) :
  records_inv e →
  ∃ e' w', iterate_body e w = Some (e', w') ∧ records_inv e'.
Proof.
  intros (Hc & Hnum & Hname & He & Hmeta).
  destruct (iterate_body_fields e w _ _ Hc He)
    as (e' & Hbody & _ & _ & Hc' & He' & Hm' & Hmeta' & _ & _).
  exists e', (iteration_effect w). split; [done |].
  unfold records_inv. rewrite Hc', He', Hm', Hmeta'.
  rewrite !fmap_app, length_app. simpl length. rewrite Nat.add_1_r.
  rewrite seq_S, fmap_app, <- Hnum. simpl.
  split; [f_equal; lia |]. split; [do 2 f_equal; lia |].
  split; [apply Forall_app; split; [done | by repeat constructor] |].
  split; [done |]. by rewrite last_snoc.
Qed.

Lemma iterate_loop_records (n : nat) (e : Engine) (w : World) :
  records_inv e →
  ∃ e' w', iterate_loop n e w = Some (e', w') ∧ records_inv e'.
Proof.
  revert e w. induction n as [|n IH]; intros e w Hinv; simpl.
  - by exists e, w.
  - destruct (finished e); [by exists e, w |].
    destruct (iterate_body_records e w Hinv) as (e1 & w1 & -> & Hinv1).
    simpl. by apply IH.
Qed.

(** After [initialize] on a new engine and any sequence of [prepare],
    [iterate] and [finalize], the iteration records are numbered 1, 2, 3, ...
    without gaps, all carry the name of the class, the error history is the
    list of their errors, and [meta] is the last of them. *)
Theorem records_consistent (pars : option (ParamUpdate Support))
    (info : list (nat * Meta Err Time)) (w0 : World) (ops : list lifecycle_op) :
  Forall (λ o, o ≠ OpInitialize) ops →
  ∃ e w,
    run_ops ops (initialize (BaseEngine_init pars info) w0).1
                (initialize (BaseEngine_init pars info) w0).2 = Some (e, w) ∧
    curiter e = Some (Z.of_nat (length (itermeta e))) ∧
    iteration <$> itermeta e
      = (λ i, Z.of_nat (S i)) <$> seq 0 (length (itermeta e)) ∧
    Forall (λ m, engine m = class_name) (itermeta e) ∧
    errorlist e = Some (error <$> itermeta e) ∧
    meta e = last (itermeta e).
Proof.
  intros Hops.
  assert (records_inv (initialize (BaseEngine_init pars info) w0).1) as H0.
  { unfold records_inv. simpl. repeat split; constructor. }
  revert H0. generalize (initialize (BaseEngine_init pars info) w0).1.
  generalize (initialize (BaseEngine_init pars info) w0).2.
  induction Hops as [|o ops Ho _ IH]; intros w e Hinv.
  - by exists e, w.
  - simpl. destruct o as [| | num |]; [done | | |]; simpl.
    + by apply IH.
    + destruct (iterate_loop_records (Z.to_nat (match num with
                  | Some n => n | None => p_numiter_contiguous (p e) end)) e w Hinv)
        as (e1 & w1 & Hloop & Hinv1).
      unfold iterate. rewrite Hloop. simpl. by apply IH.
    + by apply IH.
Qed.

(** ** The run-time log *)

Lemma iterate_body_iter_info (info : list (nat * Meta Err Time))
    (e e' : Engine) (w w' : World) :
  iterate_body e w = Some (e', w') →
  iter_info e = info ++ imap (λ i m, ((length info + i)%nat, m)) (itermeta e) →
  iter_info e' = info ++ imap (λ i m, ((length info + i)%nat, m)) (itermeta e').
Proof.
  unfold iterate_body. intros Hbody Hinv.
  destruct (errorlist e) as [el |]; [| done].
  destruct (curiter e) as [c |]; [| done]. simpl in Hbody.
  injection Hbody as <- <-. simpl.
  rewrite imap_app, app_assoc, <- Hinv. simpl. do 3 f_equal.
  rewrite Hinv at 1. rewrite length_app, length_imap. lia.
Qed.

Lemma iterate_loop_iter_info (info : list (nat * Meta Err Time)) (n : nat)
    (e e' : Engine) (w w' : World) :
  iterate_loop n e w = Some (e', w') →
  iter_info e = info ++ imap (λ i m, ((length info + i)%nat, m)) (itermeta e) →
  iter_info e' = info ++ imap (λ i m, ((length info + i)%nat, m)) (itermeta e').
Proof.
  revert e w. induction n as [|n IH]; intros e w Hloop Hinv; simpl in Hloop.
  - by injection Hloop as <- <-.
  - destruct (finished e); [by injection Hloop as <- <- |].
    destruct (iterate_body e w) as [[e1 w1] |] eqn:Hbody; [| done].
    simpl in Hloop. eapply IH; [exact Hloop |].
    by eapply iterate_body_iter_info.
Qed.

(** Whatever lifecycle operations are applied to a new engine, the run-time
    log of the parent is the log it had, followed by the iteration records
    of the engine in order, each stamped with its position in the log. *)
Theorem iter_info_mirrors_itermeta (pars : option (ParamUpdate Support))
    (info : list (nat * Meta Err Time)) (w0 : World) (ops : list lifecycle_op)
    (e : Engine) (w : World) :
  run_ops ops (BaseEngine_init pars info) w0 = Some (e, w) →
  iter_info e = info ++ imap (λ i m, ((length info + i)%nat, m)) (itermeta e).
Proof.
  assert (iter_info (BaseEngine_init pars info)
          = info ++ imap (λ i m, ((length info + i)%nat, m))
                      (itermeta (BaseEngine_init pars info))) as H0.
  { simpl. by rewrite app_nil_r. }
  revert H0. generalize (BaseEngine_init pars info). revert w0.
  induction ops as [|o ops IH]; intros w0 e0 Hinv Hrun; simpl in Hrun.
  - by injection Hrun as <- <-.
  - destruct (apply_op o e0 w0) as [[e1 w1] |] eqn:Hop; [| done].
    simpl in Hrun. eapply IH; [| exact Hrun].
    destruct o as [| | num |]; simpl in Hop.
    + by injection Hop as <- <-.
    + by injection Hop as <- <-.
    + by eapply iterate_loop_iter_info.
    + by injection Hop as <- <-.
Qed.

End BaseEngineRecords.

(** * Further properties of the collective operations *)

Lemma np_sum_concat (l : list (list Z)) :
  np_sum (np_sum <$> l) = np_sum (concat l).
Proof.
  induction l as [|a l IH]; [done |].
  rewrite fmap_cons. simpl concat. by rewrite np_sum_app, <- IH.
Qed.

Lemma np_prod_app (a b : list Z) : np_prod (a ++ b) = np_prod a * np_prod b.
Proof. induction a as [|x a IH]; simpl; [lia | rewrite IH; lia]. Qed.

Lemma np_prod_concat (l : list (list Z)) :
  np_prod (np_prod <$> l) = np_prod (concat l).
Proof.
  induction l as [|a l IH]; [done |].
  rewrite fmap_cons. simpl concat. by rewrite np_prod_app, <- IH.
Qed.

(** [np.max] returns an entry that bounds all entries. *)
Lemma np_max_spec (a : list Z) (m : Z) :
  np_max a = Some m → m ∈ a ∧ ∀ x, x ∈ a → x ≤ m.
Proof.
  destruct a as [|x a]; [done |]. simpl. intros [= <-].
  induction a as [|y a IH]; simpl.
  - split; [apply list_elem_of_here |]. intros z Hz.
    apply list_elem_of_singleton in Hz. lia.
  - destruct IH as [Hin Hub]. split.
    + destruct (Z.max_spec y (foldr Z.max x a)) as [[_ ->] | [_ ->]].
      * apply elem_of_cons in Hin as [Hin | Hin].
        -- rewrite Hin. apply list_elem_of_here.
        -- by do 2 apply list_elem_of_further.
      * apply list_elem_of_further, list_elem_of_here.
    + intros z Hz. apply elem_of_cons in Hz as [-> | Hz].
      * specialize (Hub x (list_elem_of_here _ _)). lia.
      * apply elem_of_cons in Hz as [-> | Hz]; [lia |].
        specialize (Hub z (list_elem_of_further _ _ _ Hz)). lia.
Qed.

Lemma np_min_spec (a : list Z) (m : Z) :
  np_min a = Some m → m ∈ a ∧ ∀ x, x ∈ a → m ≤ x.
Proof.
  destruct a as [|x a]; [done |]. simpl. intros [= <-].
  induction a as [|y a IH]; simpl.
  - split; [apply list_elem_of_here |]. intros z Hz.
    apply list_elem_of_singleton in Hz. lia.
  - destruct IH as [Hin Hlb]. split.
    + destruct (Z.min_spec y (foldr Z.min x a)) as [[_ ->] | [_ ->]].
      * apply list_elem_of_further, list_elem_of_here.
      * apply elem_of_cons in Hin as [Hin | Hin].
        -- rewrite Hin. apply list_elem_of_here.
        -- by do 2 apply list_elem_of_further.
    + intros z Hz. apply elem_of_cons in Hz as [-> | Hz].
      * specialize (Hlb x (list_elem_of_here _ _)). lia.
      * apply elem_of_cons in Hz as [-> | Hz]; [lia |].
        specialize (Hlb z (list_elem_of_further _ _ _ Hz)). lia.
Qed.

Lemma np_max_is_Some (a : list Z) : a ≠ [] → is_Some (np_max a).
Proof. destruct a; [done | by eexists]. Qed.

Lemma np_min_is_Some (a : list Z) : a ≠ [] → is_Some (np_min a).
Proof. destruct a; [done | by eexists]. Qed.


(** Wrapping the partial sums (products) and then the total gives the
    wrapped sum (product) of all the numbers. *)
Lemma np_sum_wrap_concat (l : list (list Z)) :
  wrap64 (np_sum (wrap64 ∘ np_sum <$> l)) = wrap64 (np_sum (concat l)).
Proof.
  apply wrap64_congr. induction l as [|a l IH]; [done |].
  rewrite fmap_cons. simpl concat. rewrite np_sum_app.
  change (np_sum ((wrap64 ∘ np_sum) a :: (wrap64 ∘ np_sum <$> l)))
    with (wrap64 (np_sum a) + np_sum (wrap64 ∘ np_sum <$> l)).
  rewrite Zplus_mod, wrap64_mod, IH, <- Zplus_mod. done.
Qed.

Lemma np_prod_wrap_concat (l : list (list Z)) :
  wrap64 (np_prod (wrap64 ∘ np_prod <$> l)) = wrap64 (np_prod (concat l)).
Proof.
  apply wrap64_congr. induction l as [|a l IH]; [done |].
  rewrite fmap_cons. simpl concat. rewrite np_prod_app.
  change (np_prod ((wrap64 ∘ np_prod) a :: (wrap64 ∘ np_prod <$> l)))
    with (wrap64 (np_prod a) * np_prod (wrap64 ∘ np_prod <$> l)).
  rewrite Zmult_mod, wrap64_mod, IH, <- Zmult_mod. done.
Qed.

Lemma mapM_Some_fmap {A B} (f : A → B) (l : list A) :
  mapM (λ x, Some (f x)) l = Some (f <$> l).
Proof. induction l as [|x l IH]; [done |]. simpl. by rewrite IH. Qed.

Section CollectiveOpsExtras.

Context {World mpi_op : Type}.
Variable M : MPI_module mpi_op.
Variable comm_Allreduce : option mpi_op → pyval → World → pyval * World.
Variable npop_gen : Op → list (list Z) → option pyval.

(** ** Reductions over everything ([axis=None]) on one rank *)

Lemma reduce_max_all (l : list (list Z)) :
  l ≠ [] → Forall (λ ai, ai ≠ []) l →
  ∃ m, (mapM np_max l ≫= np_max) = Some m ∧
       m ∈ concat l ∧ ∀ x, x ∈ concat l → x ≤ m.
Proof.
  intros Hne Hall.
  assert (is_Some (mapM np_max l)) as [ms Hms].
  { apply mapM_is_Some. eapply Forall_impl; [exact Hall |].
    intros ai Hai. by apply np_max_is_Some. }
  rewrite Hms. simpl. apply mapM_Some in Hms.
  assert (ms ≠ []) as Hmsne.
  { intros ->. apply Forall2_nil_inv_r in Hms. done. }
  destruct (np_max_is_Some ms Hmsne) as [m Hm]. exists m. split; [done |].
  apply np_max_spec in Hm as [Hin Hub]. split.
  - apply list_elem_of_lookup_1 in Hin as [i Hi].
    destruct (Forall2_lookup_r _ _ _ _ _ Hms Hi) as (ai & Hai & Hmax).
    apply np_max_spec in Hmax as [Hmi _].
    apply list_elem_of_In, in_concat. exists ai.
    split; apply list_elem_of_In; [by eapply list_elem_of_lookup_2 | done].
  - intros x Hx. apply list_elem_of_In, in_concat in Hx as (ai & Hai & Hxi).
    apply list_elem_of_In, list_elem_of_lookup_1 in Hai as [i Hi].
    destruct (Forall2_lookup_l _ _ _ _ _ Hms Hi) as (mi & Hmi & Hmax).
    apply np_max_spec in Hmax as [_ Hub'].
    specialize (Hub' x (proj2 (list_elem_of_In _ _) Hxi)).
    specialize (Hub mi (list_elem_of_lookup_2 _ _ _ Hmi)). lia.
Qed.

Lemma reduce_min_all (l : list (list Z)) :
  l ≠ [] → Forall (λ ai, ai ≠ []) l →
  ∃ m, (mapM np_min l ≫= np_min) = Some m ∧
       m ∈ concat l ∧ ∀ x, x ∈ concat l → m ≤ x.
Proof.
  intros Hne Hall.
  assert (is_Some (mapM np_min l)) as [ms Hms].
  { apply mapM_is_Some. eapply Forall_impl; [exact Hall |].
    intros ai Hai. by apply np_min_is_Some. }
  rewrite Hms. simpl. apply mapM_Some in Hms.
  assert (ms ≠ []) as Hmsne.
  { intros ->. apply Forall2_nil_inv_r in Hms. done. }
  destruct (np_min_is_Some ms Hmsne) as [m Hm]. exists m. split; [done |].
  apply np_min_spec in Hm as [Hin Hlb]. split.
  - apply list_elem_of_lookup_1 in Hin as [i Hi].
    destruct (Forall2_lookup_r _ _ _ _ _ Hms Hi) as (ai & Hai & Hmin).
    apply np_min_spec in Hmin as [Hmi _].
    apply list_elem_of_In, in_concat. exists ai.
    split; apply list_elem_of_In; [by eapply list_elem_of_lookup_2 | done].
  - intros x Hx. apply list_elem_of_In, in_concat in Hx as (ai & Hai & Hxi).
    apply list_elem_of_In, list_elem_of_lookup_1 in Hai as [i Hi].
    destruct (Forall2_lookup_l _ _ _ _ _ Hms Hi) as (mi & Hmi & Hmin).
    apply np_min_spec in Hmin as [_ Hlb'].
    specialize (Hlb' x (proj2 (list_elem_of_In _ _) Hxi)).
    specialize (Hlb mi (list_elem_of_lookup_2 _ _ _ Hmi)). lia.
Qed.

Lemma reduce_extremum_fails (f : list Z → option Z) (l : list (list Z)) :
  f [] = None → l = [] ∨ Exists (λ ai, ai = []) l → (mapM f l ≫= f) = None.
Proof.
  intros Hf [-> | Hex]; [simpl; by rewrite Hf |].
  destruct (mapM f l) as [ms |] eqn:Hms; [| done]. exfalso.
  apply mapM_Some in Hms. apply Exists_exists in Hex as (ai & Hai & ->).
  apply list_elem_of_lookup_1 in Hai as [i Hi].
  destruct (Forall2_lookup_l _ _ _ _ _ Hms Hi) as (mi & _ & Hmax). congruence.
Qed.

(** With one rank, a reduction with [axis=None] covers all the numbers of
    all the arrays that are present: [MPIsum] is their sum and [MPIprod]
    their product (0 and 1 when nothing is present), both wrapped around at
    64 bits as int64 arithmetic does, hence the exact sum or product
    whenever that lies in the int64 range; [MPImax] and [MPImin] return one
    of the numbers that bounds them all, provided some array is present and
    none is empty, and fail otherwise. *)
Theorem single_rank_total_reduction (a : list (option (list Z))) (w : World) :
  MPIsum (Some M) false comm_Allreduce npop_gen a None w
    = Some (VScalar (wrap64 (np_sum (concat (present a)))), w) ∧
  MPIprod (Some M) false comm_Allreduce npop_gen a None w
    = Some (VScalar (wrap64 (np_prod (concat (present a)))), w) ∧
  (present a ≠ [] → Forall (λ ai, ai ≠ []) (present a) →
   (∃ m, MPImax (Some M) false comm_Allreduce npop_gen a None w
           = Some (VScalar m, w) ∧
         m ∈ concat (present a) ∧ ∀ x, x ∈ concat (present a) → x ≤ m) ∧
   (∃ m, MPImin (Some M) false comm_Allreduce npop_gen a None w
           = Some (VScalar m, w) ∧
         m ∈ concat (present a) ∧ ∀ x, x ∈ concat (present a) → m ≤ x)) ∧
  (present a = [] ∨ Exists (λ ai, ai = []) (present a) →
   MPImax (Some M) false comm_Allreduce npop_gen a None w = None ∧
   MPImin (Some M) false comm_Allreduce npop_gen a None w = None) ∧
  (- 2 ^ 63 ≤ np_sum (concat (present a)) < 2 ^ 63 →
   MPIsum (Some M) false comm_Allreduce npop_gen a None w
     = Some (VScalar (np_sum (concat (present a))), w)) ∧
  (- 2 ^ 63 ≤ np_prod (concat (present a)) < 2 ^ 63 →
   MPIprod (Some M) false comm_Allreduce npop_gen a None w
     = Some (VScalar (np_prod (concat (present a))), w)).
Proof.
  assert (MPIsum (Some M) false comm_Allreduce npop_gen a None w
          = Some (VScalar (wrap64 (np_sum (concat (present a)))), w)) as Hs.
  { unfold MPIsum.
    rewrite (MPIop_disabled M comm_Allreduce npop_gen a "SUM" None w _ _
               (proj1 (op_table_names M))).
    unfold local_reduce. rewrite (mapM_npop_total SUM); [| by left].
    cbn [mbind option_bind npop fmap option_fmap option_map].
    by rewrite np_sum_wrap_concat. }
  assert (MPIprod (Some M) false comm_Allreduce npop_gen a None w
          = Some (VScalar (wrap64 (np_prod (concat (present a)))), w)) as Hp.
  { unfold MPIprod.
    rewrite (MPIop_disabled M comm_Allreduce npop_gen a "PROD" None w _ _
               (proj2 (proj2 (proj2 (op_table_names M))))).
    unfold local_reduce. rewrite (mapM_npop_total PROD); [| by right].
    cbn [mbind option_bind npop fmap option_fmap option_map].
    by rewrite np_prod_wrap_concat. }
  split; [exact Hs |]. split; [exact Hp |].
  split; [| split; [| split]].
  - unfold MPImax, MPImin.
    destruct (op_table_names M) as (_ & Hmin & Hmax & _).
    rewrite (MPIop_disabled M comm_Allreduce npop_gen a "MAX" None w _ _ Hmax).
    rewrite (MPIop_disabled M comm_Allreduce npop_gen a "MIN" None w _ _ Hmin).
    unfold local_reduce.
    change (npop MAX) with np_max. change (npop MIN) with np_min.
    intros Hne Hall. split.
    + destruct (reduce_max_all _ Hne Hall) as (m & Hm & Hin & Hub).
      exists m. split; [| done].
      destruct (mapM np_max (present a)) as [ms |]; [| done]. simpl in *.
      by rewrite Hm.
    + destruct (reduce_min_all _ Hne Hall) as (m & Hm & Hin & Hlb).
      exists m. split; [| done].
      destruct (mapM np_min (present a)) as [ms |]; [| done]. simpl in *.
      by rewrite Hm.
  - unfold MPImax, MPImin.
    destruct (op_table_names M) as (_ & Hmin & Hmax & _).
    rewrite (MPIop_disabled M comm_Allreduce npop_gen a "MAX" None w _ _ Hmax).
    rewrite (MPIop_disabled M comm_Allreduce npop_gen a "MIN" None w _ _ Hmin).
    unfold local_reduce.
    change (npop MAX) with np_max. change (npop MIN) with np_min.
    intros Hbad. split.
    + pose proof (reduce_extremum_fails np_max _ eq_refl Hbad) as Hf.
      destruct (mapM np_max (present a)) as [ms |]; [| done]. simpl in *.
      by rewrite Hf.
    + pose proof (reduce_extremum_fails np_min _ eq_refl Hbad) as Hf.
      destruct (mapM np_min (present a)) as [ms |]; [| done]. simpl in *.
      by rewrite Hf.
  - intros Hr. by rewrite Hs, wrap64_id.
  - intros Hr. by rewrite Hp, wrap64_id.
Qed.

(** ** Reductions along an axis of the arrays *)

(** For an axis other than [None] and 0 nothing is exchanged, whether MPI
    is enabled or not: the communicator is not used. With one-dimensional
    arrays, [axis=1] reduces each array that is present to a number and
    keeps [None] where an array is absent; any other axis is out of bounds
    as soon as one array is present. *)
Theorem MPIop_axis_is_local (b : bool) (a : list (option (list Z)))
    (name : string) (ax : Z) (w : World) (mo : mpi_op) (o : Op) :
  op_table (Some M) name = Some (mo, o) → ax ≠ 0 →
  _MPIop (Some M) b comm_Allreduce npop_gen a name (Some ax) w
    = (λ v, (v, w)) <$> local_reduce npop_gen o a (Some ax) ∧
  (ax = 1 →
   _MPIop (Some M) b comm_Allreduce npop_gen a name (Some ax) w
     = (λ r, (VScalars r, w)) <$>
         mapM (λ ai, match ai with
                     | Some x => Some <$> npop o x
                     | None => Some None
                     end) a) ∧
  (ax ≠ 1 → present a ≠ [] →
   _MPIop (Some M) b comm_Allreduce npop_gen a name (Some ax) w = None).
Proof.
  intros Hop Hax.
  assert (_MPIop (Some M) b comm_Allreduce npop_gen a name (Some ax) w
          = (λ v, (v, w)) <$> local_reduce npop_gen o a (Some ax)) as Heq.
  { unfold _MPIop, local_reduce. rewrite Hop. simpl.
    destruct (Z.eqb_spec ax 0) as [| _]; [done |].
    by destruct (mapM _ a). }
  split; [done |]. rewrite Heq. unfold local_reduce.
  destruct (Z.eqb_spec ax 0) as [| _]; [done |]. split.
  - intros ->. unfold npop_axis. simpl. by destruct (mapM _ a).
  - intros Hne1 Hpres.
    destruct (mapM _ a) as [r |] eqn:Hr; [| done]. exfalso.
    apply mapM_Some in Hr.
    destruct a as [|ai a]; [done |].
    assert (∃ i x, (ai :: a) !! i = Some (Some x)) as (i & x & Hi).
    { clear Hr. revert Hpres. generalize (ai :: a). intros l.
      induction l as [|[y |] l IH]; intros Hp; [done | by exists 0%nat, y |].
      destruct (IH Hp) as (i & x & Hi). by exists (S i), x. }
    destruct (Forall2_lookup_l _ _ _ _ _ Hr Hi) as (y & _ & Hy).
    unfold npop_axis in Hy.
    destruct (Z.eqb_spec (ax - 1) 0); [lia |].
    destruct (Z.eqb_spec (ax - 1) (-1)); [lia |]. done.
Qed.

(** ** The name of the operation and the module [MPI] *)

(** [_MPIop] fails when the module [MPI] is [None] and when the name of
    the operation, put in upper case, is not one of the four names of the
    table; a name that differs from one of them only in case selects that
    operation. *)
Theorem MPIop_op_lookup (b : bool) (a : list (option (list Z)))
    (name : string) (axis : option Z) (w : World) :
  _MPIop None b comm_Allreduce npop_gen a name axis w = None ∧
  (upper name ∉ ["SUM"; "MAX"; "MIN"; "PROD"] →
   _MPIop (Some M) b comm_Allreduce npop_gen a name axis w = None) ∧
  (upper name = "SUM" →
   _MPIop (Some M) b comm_Allreduce npop_gen a name axis w
   = MPIsum (Some M) b comm_Allreduce npop_gen a axis w) ∧
  (upper name = "MAX" →
   _MPIop (Some M) b comm_Allreduce npop_gen a name axis w
   = MPImax (Some M) b comm_Allreduce npop_gen a axis w) ∧
  (upper name = "MIN" →
   _MPIop (Some M) b comm_Allreduce npop_gen a name axis w
   = MPImin (Some M) b comm_Allreduce npop_gen a axis w) ∧
  (upper name = "PROD" →
   _MPIop (Some M) b comm_Allreduce npop_gen a name axis w
   = MPIprod (Some M) b comm_Allreduce npop_gen a axis w).
Proof.
  split; [done |]. split.
  - intros Hname. unfold _MPIop, op_table. simpl.
    destruct (String.eqb_spec (upper name) "SUM") as [Heq | _].
    { exfalso. apply Hname. rewrite Heq. set_solver. }
    destruct (String.eqb_spec (upper name) "MAX") as [Heq | _].
    { exfalso. apply Hname. rewrite Heq. set_solver. }
    destruct (String.eqb_spec (upper name) "MIN") as [Heq | _].
    { exfalso. apply Hname. rewrite Heq. set_solver. }
    destruct (String.eqb_spec (upper name) "PROD") as [Heq | _].
    { exfalso. apply Hname. rewrite Heq. set_solver. }
    done.
  - unfold MPIsum, MPImax, MPImin, MPIprod, _MPIop, op_table. simpl.
    repeat split; intros ->; done.
Qed.

End CollectiveOpsExtras.

(** ** [useMPI] *)

Lemma useMPI_calls_inv {mpi_op : Type} (dos : list (option bool))
    (g0 : parallel_globals mpi_op) :
  g_MPI (useMPI_calls dos g0) = g_MPI g0 ∧
  g_size (useMPI_calls dos g0) = g_size g0 ∧
  g_rank (useMPI_calls dos g0) = g_rank g0 ∧
  g_master (useMPI_calls dos g0) = g_master g0 ∧
  ((g_MPIenabled g0 = true → is_Some (g_MPI g0)) →
   g_MPIenabled (useMPI_calls dos g0) = true →
   is_Some (g_MPI (useMPI_calls dos g0))).
Proof.
  revert g0. induction dos as [|d dos IH]; intros g0; [done |].
  change (useMPI_calls (d :: dos) g0) with (useMPI_calls dos (useMPI d g0).2).
  destruct (IH (useMPI d g0).2) as (HM & Hs & Hr & Hm & He).
  rewrite HM, Hs, Hr, Hm in *.
  destruct d as [d |]; cbn [useMPI snd g_MPI g_size g_rank g_master g_MPIenabled] in *.
  - repeat split. intros _. apply He. by destruct (g_MPI g0).
  - done.
Qed.

(** Whatever happened at import time and whatever calls of [useMPI]
    followed, MPI is never enabled without the module [MPI]; [size], [rank]
    and [master] are those found at import time; and when the import itself
    failed the process is the master of a run of size 1. *)
Theorem useMPI_never_enables_without_MPI {mpi_op : Type}
    (o : import_outcome mpi_op) (dos : list (option bool)) :
  let g := useMPI_calls dos (module_import o) in
  (g_MPIenabled g = true → is_Some (g_MPI g)) ∧
  g_size g = g_size (module_import o) ∧
  g_rank g = g_rank (module_import o) ∧
  g_master g = g_master (module_import o) ∧
  (o = ImportFailed →
   g_MPIenabled g = false ∧ g_size g = 1%nat ∧ g_master g = true).
Proof.
  intros g. unfold g.
  destruct (useMPI_calls_inv dos (module_import o)) as (HM & Hs & Hr & Hm & He).
  assert (g_MPIenabled (module_import o) = true → is_Some (g_MPI (module_import o)))
    as H0 by (by destruct o as [| | | ? [|[|?]] | ? [|[|?]] ?]).
  split; [by apply He |]. split; [done |]. split; [done |]. split; [done |].
  intros ->. split; [| by rewrite Hs, Hm].
  destruct (g_MPIenabled (useMPI_calls dos (module_import ImportFailed))) eqn:Hen;
    [| done].
  destruct (He H0 eq_refl) as [M' HM']. rewrite HM in HM'. done.
Qed.

(** [useMPI()] without an argument only reports the flag. *)
Lemma useMPI_query {mpi_op : Type} (g : parallel_globals mpi_op) :
  useMPI None g = (Some (g_MPIenabled g), g).
Proof. done. Qed.


(** * Properties of [send] and [receive] *)

Lemma take_tag_skip (tag : Z) (ch rest : channel) (b : body) :
  Forall (λ m, m.1 ≠ tag) ch →
  take_tag tag (ch ++ (tag, b) :: rest) = Some (b, ch ++ rest).
Proof.
  induction 1 as [|[t b0] ch Ht _ IH]; simpl.
  - by rewrite Z.eqb_refl.
  - simpl in Ht. destruct (Z.eqb_spec t tag); [done |]. by rewrite IH.
Qed.

Lemma astype_bool_uint8 (a : ndarray) :
  a_dtype a = "|b1"%string → array_wf a → astype_bool (astype_uint8 a) = a.
Proof.
  intros Hdt [_ Hbool]. destruct a as [sh dt items]. simpl in *. subst dt.
  unfold astype_bool, astype_uint8. simpl. f_equal.
  specialize (Hbool eq_refl). induction Hbool as [|x l [-> | ->] _ IH]; simpl;
    [done | by rewrite IH | by rewrite IH].
Qed.

(** What [send] leaves in the channel: the header under tag 1, then the
    elements under the tag of the call. *)
Lemma send_messages (data : ndarray) (tag : Z) (ch : channel) :
  send data tag ch
  = ch ++ [(1, Header (a_shape data) (a_dtype data));
           (tag, Buffer (a_items data))].
Proof.
  unfold send, comm_send, comm_Send. simpl.
  destruct (String.eqb _ _); simpl; by rewrite <- app_assoc.
Qed.

(** An array sent is the array received, booleans included: when nothing
    older in the channel carries tag 1 or the tag of the call, [receive]
    returns the array that [send] was given, with its shape and element
    type, takes exactly its two messages out of the channel, and leaves
    what was sent later. *)
Theorem send_receive_round_trip (data : ndarray) (tag : Z) (ch rest : channel) :
  array_wf data →
  Forall (λ m, m.1 ≠ 1 ∧ m.1 ≠ tag) ch →
  receive tag None (send data tag ch ++ rest) = Some (data, ch ++ rest).
Proof.
  intros Hwf Hch. rewrite send_messages, <- app_assoc. simpl.
  assert (Forall (λ m : Z * body, m.1 ≠ 1) ch) as H1
    by (eapply Forall_impl; [exact Hch | by intros ? [? ?]]).
  assert (Forall (λ m : Z * body, m.1 ≠ tag) ch) as Ht
    by (eapply Forall_impl; [exact Hch | by intros ? [? ?]]).
  unfold receive, comm_recv. rewrite (take_tag_skip 1 ch _ _ H1). simpl.
  unfold comm_Recv. rewrite (take_tag_skip tag ch rest _ Ht).
  destruct Hwf as [Hlen Hbool].
  destruct (String.eqb_spec (a_dtype data) "|b1") as [Hdt | Hdt]; simpl;
    rewrite length_replicate, <- Hlen, Nat.leb_refl; simpl;
    rewrite drop_replicate, Hlen, Nat.sub_diag, app_nil_r; simpl.
  - do 2 f_equal.
    rewrite <- (astype_bool_uint8 data Hdt (conj Hlen Hbool)) at 3. done.
  - do 2 f_equal. by destruct data.
Qed.

(** Headers always travel under tag 1, so they are taken in the order they
    were sent whatever the tag of the data: after two sends, under different
    tags, of arrays with the same element type (not bool) and the same
    number of elements, a receive for the second tag returns the elements
    of the second array with the shape of the first, and leaves the data of
    the first array and the header of the second in flight. *)
Theorem receive_pairs_headers_in_order (a b : ndarray) (ta tb : Z) :
  ta ≠ tb → ta ≠ 1 → tb ≠ 1 →
  a_dtype b = a_dtype a →
  a_dtype a ≠ "|b1"%string →
  length (a_items b) = array_size (a_shape a) →
  receive tb None (send b tb (send a ta []))
  = Some ({| a_shape := a_shape a; a_dtype := a_dtype a; a_items := a_items b |},
          [(ta, Buffer (a_items a)); (1, Header (a_shape b) (a_dtype b))]).
Proof.
  intros Hab Ha Hb _ Hdt Hlen. rewrite !send_messages. cbn [app].
  pose proof (take_tag_skip 1 []
                [(ta, Buffer (a_items a)); (1, Header (a_shape b) (a_dtype b));
                 (tb, Buffer (a_items b))]
                (Header (a_shape a) (a_dtype a)) (Forall_nil_2 _)) as E1.
  pose proof (take_tag_skip tb
                [(ta, Buffer (a_items a)); (1, Header (a_shape b) (a_dtype b))]
                [] (Buffer (a_items b))) as E2.
  cbn [app] in E1, E2.
  unfold receive, comm_recv. rewrite E1. cbn [mbind option_bind].
  unfold comm_Recv. rewrite E2 by (repeat constructor; simpl; congruence).
  apply String.eqb_neq in Hdt. rewrite Hdt.
  cbn [np_empty a_items a_shape a_dtype].
  rewrite length_replicate, Hlen, Nat.leb_refl. cbn [mbind option_bind].
  by rewrite drop_replicate, Nat.sub_diag, app_nil_r.
Qed.


(** * Instances of the further properties *)


Lemma loads_balanced_and_counted_witness :
  ∃ outs lm,
    run_assigns_outs 2 (LoadManager_init 2) [Some [5; 6; 7]%nat; None]
      = Some (outs, lm) ∧
    run_assigns 2 (LoadManager_init 2) [Some [5; 6; 7]%nat; None] = Some lm ∧
    length (load lm) = 2%nat ∧
    (∀ r r' x y, load lm !! r = Some x → load lm !! r' = Some y →
                 Z.abs (x - y) ≤ 1) ∧
    (∀ r, (r < 2)%nat → load lm !! r = Some (share_total outs r)).
Proof.
  apply (loads_balanced_and_counted 2 [Some [5; 6; 7]%nat; None]). lia.
Defined.

Lemma assign_rank_of_witness :
  ∃ out lm',
    assign 2 {| load := [0; 0]; rank_of := (∅ : gmap nat nat) |}
      (Some [5; 6; 5]%nat) = Some (out, lm') ∧
    (∀ k, k ∉ [5; 6; 5]%nat → rank_of lm' !! k = (∅ : gmap nat nat) !! k) ∧
    (∀ j k, [5; 6; 5]%nat !! j = Some k →
            (∀ j', (j < j')%nat → [5; 6; 5]%nat !! j' ≠ Some k) →
            ∃ r, rank_of lm' !! k = Some r ∧ (r < 2)%nat ∧ owns out r j).
Proof.
  apply (assign_rank_of 2 {| load := [0; 0]; rank_of := ∅ |} [5; 6; 5]%nat);
    [reflexivity | lia].
Defined.

Lemma assign_empty_noop_witness :
  assign 3 {| load := [2; 3; 2]; rank_of := (∅ : gmap nat nat) |} (Some [])
  = Some (replicate 3 [], {| load := [2; 3; 2]; rank_of := ∅ |}).
Proof.
  apply (assign_empty_noop 3 {| load := [2; 3; 2]; rank_of := ∅ |});
    [reflexivity | lia |].
  exists 2. repeat constructor; simpl; lia.
Defined.


Lemma assign_single_item_as_anonymous_witness :
  ∃ out lm_a lm_b r,
    assign 3 {| load := [1; 1; 2]; rank_of := (∅ : gmap nat nat) |} None
      = Some (out, lm_a) ∧
    assign 3 {| load := [1; 1; 2]; rank_of := (∅ : gmap nat nat) |}
      (Some [9%nat]) = Some (out, lm_b) ∧
    load lm_a = load lm_b ∧
    out !! r = Some [0%nat] ∧
    rank_of lm_a = ∅ ∧
    rank_of lm_b = <[9%nat := r]> (∅ : gmap nat nat).
Proof.
  apply (assign_single_item_as_anonymous 3
           {| load := [1; 1; 2]; rank_of := ∅ |} 9%nat); [reflexivity | lia |].
  exists 1. repeat constructor; simpl; lia.
Defined.

Lemma iterate_runs_to_budget_witness :
  ∃ e',
    iterate (Env := demo_env) (Hooks := demo_hooks) (Some 5)
      (initialize (Env := demo_env) (Hooks := demo_hooks) (demo_engine 3) 0).1 0
      = Some (e', Nat.iter 3 (iteration_effect (Env := demo_env)
                                (Hooks := demo_hooks)) 0) ∧
    curiter e' = Some (0 + Z.of_nat 3) ∧
    finished e' = false || bool_decide (0 + Z.of_nat 3 = 3) ∧
    length (itermeta e') = (0 + 3)%nat.
Proof.
  apply (iterate_runs_to_budget (Env := demo_env) (Hooks := demo_hooks) (Some 5)
           (initialize (Env := demo_env) (Hooks := demo_hooks) (demo_engine 3) 0).1
           0 0); [reflexivity | by eexists | simpl; lia].
Defined.

Lemma iterate_past_budget_witness :
  ∃ e',
    iterate (Env := demo_env) (Hooks := demo_hooks) (Some 2)
      (initialize (Env := demo_env) (Hooks := demo_hooks) (demo_engine 0) 0).1 0
      = Some (e', Nat.iter (Z.to_nat 2) (iteration_effect (Env := demo_env)
                                           (Hooks := demo_hooks)) 0) ∧
    curiter e' = Some (0 + Z.of_nat (Z.to_nat 2)) ∧
    finished e' = false.
Proof.
  apply (iterate_past_budget (Env := demo_env) (Hooks := demo_hooks) (Some 2)
           (initialize (Env := demo_env) (Hooks := demo_hooks) (demo_engine 0) 0).1
           0 0); [reflexivity | reflexivity | by eexists | simpl; lia].
Defined.

Lemma iterate_nonpositive_witness :
  iterate (Env := demo_env) (Hooks := demo_hooks) (Some 0) (demo_engine 3) 0
  = Some (demo_engine 3, 0).
Proof.
  apply (iterate_nonpositive (Env := demo_env) (Hooks := demo_hooks) 0). lia.
Defined.

Lemma iterate_before_initialize_witness :
  iterate (Env := demo_env) (Hooks := demo_hooks) None (demo_engine 3) 0 = None.
Proof.
  apply (iterate_before_initialize (Env := demo_env) (Hooks := demo_hooks)
           (Some {| u_numiter := Some 3; u_numiter_contiguous := None;
                    u_probe_support := None |}) [] 0 None).
  simpl. lia.
Defined.

Lemma initialize_keeps_finished_witness :
  let e := {| p := p (demo_engine 1); itermeta := []; meta := None;
              finished := true; numiter := 1; curiter := Some 1;
              errorlist := Some [0]; iter_info := [] |} in
  curiter (initialize (Env := demo_env) (Hooks := demo_hooks) e 0).1 = Some 0 ∧
  errorlist (initialize (Env := demo_env) (Hooks := demo_hooks) e 0).1 = Some [] ∧
  itermeta (initialize (Env := demo_env) (Hooks := demo_hooks) e 0).1 = itermeta e ∧
  iterate (Env := demo_env) (Hooks := demo_hooks) (Some 4)
    (initialize (Env := demo_env) (Hooks := demo_hooks) e 0).1
    (initialize (Env := demo_env) (Hooks := demo_hooks) e 0).2
  = Some (initialize (Env := demo_env) (Hooks := demo_hooks) e 0).
Proof.
  intros e.
  apply (initialize_keeps_finished (Env := demo_env) (Hooks := demo_hooks)
           (Some 4) e 0). reflexivity.
Defined.

Lemma records_consistent_witness :
  ∃ e w,
    run_ops (Env := demo_env) (Hooks := demo_hooks)
      [OpPrepare; OpIterate (Some 2); OpIterate None]
      (initialize (Env := demo_env) (Hooks := demo_hooks) (demo_engine 5) 0).1
      (initialize (Env := demo_env) (Hooks := demo_hooks) (demo_engine 5) 0).2
      = Some (e, w) ∧
    curiter e = Some (Z.of_nat (length (itermeta e))) ∧
    iteration <$> itermeta e
      = (λ i, Z.of_nat (S i)) <$> seq 0 (length (itermeta e)) ∧
    Forall (λ m, engine m = "DM"%string) (itermeta e) ∧
    errorlist e = Some (error <$> itermeta e) ∧
    meta e = last (itermeta e).
Proof.
  apply (records_consistent (Env := demo_env) (Hooks := demo_hooks)
           (Some {| u_numiter := Some 5; u_numiter_contiguous := None;
                    u_probe_support := None |}) [] 0
           [OpPrepare; OpIterate (Some 2); OpIterate None]).
  repeat constructor; discriminate.
Defined.

Lemma iter_info_mirrors_itermeta_witness :
  ∃ e w,
    run_ops (Env := demo_env) (Hooks := demo_hooks)
      [OpInitialize; OpIterate None] (demo_engine 2) 0 = Some (e, w) ∧
    iter_info e = [] ++ imap (λ i m, ((length (@nil (nat * Meta Z Z)) + i)%nat, m))
                          (itermeta e).
Proof.
  eexists _, _. split; [reflexivity |].
  apply (iter_info_mirrors_itermeta (Env := demo_env) (Hooks := demo_hooks)
           (Some {| u_numiter := Some 2; u_numiter_contiguous := None;
                    u_probe_support := None |}) [] 0
           [OpInitialize; OpIterate None] _ _ eq_refl).
Defined.

Lemma single_rank_total_reduction_witness :
  ∃ m,
    MPImax (World := unit) (Some (mkMPI 0%nat 1%nat 2%nat 3%nat)) false
      (λ _ a w, (a, w)) (λ _ _, None) [Some [3; 8]; None; Some [5]] None tt
      = Some (VScalar m, tt) ∧
    m ∈ concat (present [Some [3; 8]; None; Some [5]]) ∧
    ∀ x, x ∈ concat (present [Some [3; 8]; None; Some [5]]) → x ≤ m.
Proof.
  apply (proj1 (proj1 (proj2 (proj2
           (single_rank_total_reduction (World := unit)
              (mkMPI 0%nat 1%nat 2%nat 3%nat) (λ _ a w, (a, w)) (λ _ _, None)
              [Some [3; 8]; None; Some [5]] tt)))
           ltac:(discriminate) ltac:(repeat constructor; discriminate))).
Defined.

(** The sum wraps around: two arrays holding [2^62] each add up to
    [-2^63], and [2^32 * 2^32] is 0. *)
Lemma total_reduction_wraps :
  MPIsum (World := unit) (Some (mkMPI 0%nat 1%nat 2%nat 3%nat)) false
    (λ _ a w, (a, w)) (λ _ _, None) [Some [2 ^ 62]; Some [2 ^ 62]] None tt
  = Some (VScalar (- 2 ^ 63), tt) ∧
  MPIprod (World := unit) (Some (mkMPI 0%nat 1%nat 2%nat 3%nat)) false
    (λ _ a w, (a, w)) (λ _ _, None) [Some [2 ^ 32; 2 ^ 32]] None tt
  = Some (VScalar 0, tt).
Proof. split; vm_compute; reflexivity. Qed.

Lemma MPIop_axis_is_local_witness :
  _MPIop (World := unit) (Some (mkMPI 0%nat 1%nat 2%nat 3%nat)) true
    (λ _ a w, (a, w)) (λ _ _, None) [Some [3; 8]; None] "min" (Some 1) tt
  = (λ r, (VScalars r, tt)) <$>
      mapM (λ ai, match ai with
                  | Some x => Some <$> npop MIN x
                  | None => Some None
                  end) [Some [3; 8]; None].
Proof.
  apply (proj1 (proj2
           (MPIop_axis_is_local (World := unit) (mkMPI 0%nat 1%nat 2%nat 3%nat)
              (λ _ a w, (a, w)) (λ _ _, None) true [Some [3; 8]; None] "min" 1
              tt 2%nat MIN eq_refl ltac:(lia))) eq_refl).
Defined.

Lemma MPIop_op_lookup_witness :
  _MPIop (World := unit) (Some (mkMPI 0%nat 1%nat 2%nat 3%nat)) false
    (λ _ a w, (a, w)) (λ _ _, None) [Some [3; 8]] "mean" None tt = None.
Proof.
  apply (proj1 (proj2
           (MPIop_op_lookup (World := unit) (mkMPI 0%nat 1%nat 2%nat 3%nat)
              (λ _ a w, (a, w)) (λ _ _, None) false [Some [3; 8]] "mean" None tt))).
  simpl. intros Hin.
  repeat (apply elem_of_cons in Hin as [Hin | Hin]; [discriminate |]).
  by apply elem_of_nil in Hin.
Defined.

Lemma useMPI_never_enables_without_MPI_witness :
  g_MPIenabled (useMPI_calls [Some true; None; Some true]
                  (module_import (mpi_op := nat) ImportFailed)) = false ∧
  g_size (useMPI_calls [Some true; None; Some true]
            (module_import (mpi_op := nat) ImportFailed)) = 1%nat ∧
  g_master (useMPI_calls [Some true; None; Some true]
              (module_import (mpi_op := nat) ImportFailed)) = true.
Proof.
  apply (proj2 (proj2 (proj2 (proj2
           (useMPI_never_enables_without_MPI (mpi_op := nat) ImportFailed
              [Some true; None; Some true])))) eq_refl).
Defined.

Lemma send_receive_round_trip_witness :
  receive 0 None
    (send {| a_shape := [2; 2]%nat; a_dtype := "|b1"; a_items := [1; 0; 0; 1] |} 0
       [(5, Buffer [7])]
     ++ [(1, Header [1%nat] "<i8")])
  = Some ({| a_shape := [2; 2]%nat; a_dtype := "|b1"; a_items := [1; 0; 0; 1] |},
          [(5, Buffer [7])] ++ [(1, Header [1%nat] "<i8")]).
Proof.
  apply (send_receive_round_trip
           {| a_shape := [2; 2]%nat; a_dtype := "|b1"; a_items := [1; 0; 0; 1] |} 0
           [(5, Buffer [7])] [(1, Header [1%nat] "<i8")]).
  - split; [reflexivity |]. intros _.
    repeat (constructor; [lia |]). constructor.
  - repeat constructor; simpl; lia.
Defined.

Lemma receive_pairs_headers_in_order_witness :
  receive 5 None
    (send {| a_shape := [2%nat]; a_dtype := "<i8"; a_items := [30; 40] |} 5
       (send {| a_shape := [1; 2]%nat; a_dtype := "<i8"; a_items := [1; 2] |} 0 []))
  = Some ({| a_shape := [1; 2]%nat; a_dtype := "<i8"; a_items := [30; 40] |},
          [(0, Buffer [1; 2]); (1, Header [2%nat] "<i8")]).
Proof.
  apply (receive_pairs_headers_in_order
           {| a_shape := [1; 2]%nat; a_dtype := "<i8"; a_items := [1; 2] |}
           {| a_shape := [2%nat]; a_dtype := "<i8"; a_items := [30; 40] |} 0 5);
    (lia || discriminate || reflexivity).
Defined.
